(** * Stan: the unconstraining writer and the walk-move ensemble sampler

    A shallow embedding of [src/stan/io/writer.hpp] (class [writer<T>] at
    [T = double]) and of [src/stan/mcmc/ensemble/walk_move_ensemble.hpp]
    (class [walk_move_ensemble]), with the properties of the two
    components stated and proved over the embedding.

    Conventions.
    - A C++ [double] is an IEEE 754 binary64 value, modelled by the
      Standard Library's [spec_float] with the binary64 operations
      ([prec = 53], [emax = 1024]); literals are the nearest doubles.
    - [assert(c)] with [c] false is the constraint-violation error.  The
      outcome of a writer call records the writer as it is when the
      assertion fails.
    - Indexing a [std::vector] or an Eigen vector out of range is
      undefined behaviour in C++; the sampler model reports it as
      [Undefined].
    - [abs] in the writer is the absolute value of a [double].
    - The [<cmath>] functions, [logit], [factor_cov_matrix], the
      log-density oracle and the random source live outside these files
      and are parameters of the sections below. *)

From Stdlib Require Import ZArith Lia Bool Sorted.
From Stdlib Require Import Floats.
From stdpp Require Import base list.

Set Warnings "-inexact-float".
Local Open Scope Z_scope.

(* ===================================================================== *)
(** * IEEE 754 binary64 values *)
(* ===================================================================== *)

Definition double := spec_float.

Definition dadd : double -> double -> double := SFadd prec emax.
Definition dsub : double -> double -> double := SFsub prec emax.
Definition dmul : double -> double -> double := SFmul prec emax.
Definition ddiv : double -> double -> double := SFdiv prec emax.
Definition dabs : double -> double := SFabs.

(** The C++ comparison operators; every comparison with a NaN is false. *)
Definition dlt (x y : double) : bool := SFltb x y.          (* x <  y *)
Definition dle (x y : double) : bool := SFleb x y.          (* x <= y *)
Definition dgt (x y : double) : bool := SFltb y x.          (* x >  y *)
Definition dge (x y : double) : bool := SFleb y x.          (* x >= y *)
Definition deq (x y : double) : bool := SFeqb x y.          (* x == y *)

Definition nan : double := S754_nan.
Definition infinity : double := S754_infinity false.
Definition neg_infinity : double := S754_infinity true.

(** [boost::math::isnan]. *)
Definition isnan (x : double) : bool :=
  match x with S754_nan => true | _ => false end.

(** Zeros, subnormal and normal numbers. *)
Definition is_finite (x : double) : bool :=
  match x with S754_zero _ | S754_finite _ _ _ => true | _ => false end.

Definition is_zero (x : double) : bool :=
  match x with S754_zero _ => true | _ => false end.

(** Literals of the sources and of the examples. *)
Definition d0 : double := S754_zero false.
Definition d1 : double := Eval vm_compute in Prim2SF 1%float.
Definition d2 : double := Eval vm_compute in Prim2SF 2%float.
Definition dhalf : double := Eval vm_compute in Prim2SF 0.5%float.
Definition dminus1 : double := Eval vm_compute in Prim2SF (-1)%float.
Definition d1e_8 : double := Eval vm_compute in Prim2SF 1e-8%float.
Definition d2e_8 : double := Eval vm_compute in Prim2SF 2e-8%float.
Definition d5e_9 : double := Eval vm_compute in Prim2SF 5e-9%float.
Definition d1e_6 : double := Eval vm_compute in Prim2SF 1e-6%float.

(** Conversion of a container size to [double] (exact below [2^53],
    rounded to nearest even above). *)
Definition double_of_nat (n : nat) : double :=
  binary_normalize prec emax (Z.of_nat n) 0 false.



(** An Eigen column vector [Matrix<double,Dynamic,1>]. *)
Abbreviation vector := (list double).

(** [y[i]] on a vector; the default is never reached for [i] in range. *)
Definition coeff (y : vector) (i : nat) : double := nth i y nan.

(** [y.sum()]: Eigen's default reduction starts from the first
    coefficient and adds the others in order; the empty sum is zero. *)
Definition sum (y : vector) : double :=
  match y with
  | [] => d0
  | y0 :: rest => fold_left dadd rest y0
  end.

(* ===================================================================== *)
(** * The writer ([stan::io::writer<double>]) *)
(* ===================================================================== *)

(** The private members of the class.  Both are declared by value
    ([std::vector<T> data_r_; std::vector<int> data_i_;]): they are
    objects of the writer, not references. *)
Record writer := Writer {
  data_r_ : list double;
  data_i_ : list Z
}.

(** The [const double] member, initialised to [1E-8] by the constructor. *)
Definition CONSTRAINT_TOLERANCE : double := d1e_8.

(** The constructor [writer(std::vector<T>& data_r, std::vector<int>&
    data_i)]: its initialiser list [data_r_(data_r), data_i_(data_i)]
    copy-constructs the two members from the arguments. *)
Definition mk_writer (data_r : list double) (data_i : list Z) : writer :=
  Writer data_r data_i.

(** [data_r_.push_back(x)]. *)
Definition push_back (w : writer) (x : double) : writer :=
  Writer (data_r_ w ++ [x]) (data_i_ w).

(** The result of a call: it returns, or an assertion fails; either way
    the writer is the one the call leaves behind. *)
Inductive outcome :=
| Done (w : writer)
| ConstraintViolation (w : writer).

Definition written (o : outcome) : writer :=
  match o with Done w | ConstraintViolation w => w end.

Definition raises (o : outcome) : bool :=
  match o with Done _ => false | ConstraintViolation _ => true end.

(** [assert(c); rest]. *)
Definition assert (c : bool) (w : writer) (rest : outcome) : outcome :=
  if c then rest else ConstraintViolation w.

(** [w] with the values [out] appended to its real buffer. *)
Definition append (w : writer) (out : list double) : writer :=
  Writer (data_r_ w ++ out) (data_i_ w).

(** The shape shared by the loops of [pos_ordered_unconstrain] and
    [simplex_unconstrain]: check entry [i], append its output, go on. *)
Fixpoint guarded_loop (check : nat -> bool) (out : nat -> double)
    (n i : nat) (w : writer) : outcome :=
  match n with
  | O => Done w
  | S n' =>
      assert (check i) w (guarded_loop check out n' (S i) (push_back w (out i)))
  end.

(** A dynamic Eigen matrix, as far as the writer looks at it. *)
Record matrix := Matrix {
  rows : Z;
  cols : Z;
  entries : list (list double)
}.

(** [unsigned int] arithmetic. *)
Definition uint (z : Z) : Z := z mod 2 ^ 32.

Section Writer.

(** [log] and [atanh] of [<cmath>], [logit] of
    [stan/maths/special_functions.hpp]. *)
Variables log logit atanh : double -> double.

(** [factor_cov_matrix(cpcs, sds, y)] of the maths library: the success
    flag and the contents of [cpcs] and [sds] after the call.  The
    writer reads [cpcs[i]] for [i < k_choose_2] and [sds[i]] for
    [i < k]; [coeff] stands for these reads. *)
Variable factor_cov_matrix : matrix -> bool * (list double * list double).

Definition scalar_unconstrain (y : double) (w : writer) : outcome :=
  Done (push_back w y).

Definition scalar_pos_unconstrain (y : double) (w : writer) : outcome :=
  assert (dge y d0) w (Done (push_back w (log y))).

Definition scalar_lb_unconstrain (lb y : double) (w : writer) : outcome :=
  assert (dge y lb) w (Done (push_back w (log (dsub y lb)))).

Definition scalar_ub_unconstrain (ub y : double) (w : writer) : outcome :=
  assert (dle y ub) w (Done (push_back w (log (dsub ub y)))).

Definition scalar_lub_unconstrain (lb ub y : double) (w : writer) : outcome :=
  assert (dle lb y) w
    (assert (dle y ub) w
       (Done (push_back w (logit (ddiv (dsub y lb) (dsub ub lb)))))).

Definition corr_unconstrain (y : double) (w : writer) : outcome :=
  assert (dle dminus1 y) w
    (assert (dle y d1) w (Done (push_back w (atanh y)))).

Definition prob_unconstrain (y : double) (w : writer) : outcome :=
  assert (dle d0 y) w
    (assert (dle y d1) w (Done (push_back w (logit y)))).

(** The loop [for (i = 1; i < y.size(); ++i)] of
    [pos_ordered_unconstrain], with [n] iterations left. *)
Fixpoint pos_ordered_loop (n i : nat) (y : vector) (w : writer) : outcome :=
  match n with
  | O => Done w
  | S n' =>
      assert (dge (coeff y i) (coeff y (i - 1))) w
        (pos_ordered_loop n' (S i) y
           (push_back w (log (dsub (coeff y i) (coeff y (i - 1))))))
  end.

Definition pos_ordered_unconstrain (y : vector) (w : writer) : outcome :=
  if (length y =? 0)%nat then Done w
  else
    assert (dge (coeff y 0) d0) w
      (pos_ordered_loop (length y - 1) 1 y (push_back w (log (coeff y 0)))).

(** The loop [for (i = 0; i < k_minus_1; ++i)] of [simplex_unconstrain],
    with [n] iterations left. *)
Fixpoint simplex_loop (n i : nat) (y : vector) (log_y_k : double)
    (w : writer) : outcome :=
  match n with
  | O => Done w
  | S n' =>
      assert (dge (coeff y i) d0) w
        (simplex_loop n' (S i) y log_y_k
           (push_back w (dsub (log (coeff y i)) log_y_k)))
  end.

Definition simplex_unconstrain (y : vector) (w : writer) : outcome :=
  assert (0 <? length y)%nat w
    (assert (dlt (dabs (dsub d1 (sum y))) CONSTRAINT_TOLERANCE) w
       (let k_minus_1 := (length y - 1)%nat in
        let log_y_k := log (coeff y k_minus_1) in
        simplex_loop k_minus_1 0 y log_y_k w)).

(** [for (i = 0; i < n; ++i) data_r_.push_back(a[i]);] *)
Fixpoint push_all (n i : nat) (a : list double) (w : writer) : writer :=
  match n with
  | O => w
  | S n' => push_all n' (S i) a (push_back w (coeff a i))
  end.

(** [for (i = 0; i < k; ++i) assert(abs(sds[i] - 1.0) < CONSTRAINT_TOLERANCE);] *)
Fixpoint unit_sds (n i : nat) (sds : list double) : bool :=
  match n with
  | O => true
  | S n' =>
      dlt (dabs (dsub (coeff sds i) d1)) CONSTRAINT_TOLERANCE
      && unit_sds n' (S i) sds
  end.

Definition corr_matrix_unconstrain (y : matrix) (w : writer) : outcome :=
  let k := uint (rows y) in
  assert (0 <? k) w
    (assert (cols y =? k) w
       (let k_choose_2 := uint (k * uint (k - 1)) / 2 in
        let '(successful, (cpcs, sds)) := factor_cov_matrix y in
        assert (unit_sds (Z.to_nat k) 0 sds) w
          (assert successful w
             (Done (push_all (Z.to_nat k_choose_2) 0 cpcs w))))).

Definition cov_matrix_unconstrain (y : matrix) (w : writer) : outcome :=
  let k := uint (rows y) in
  assert (0 <? k) w
    (assert (cols y =? k) w
       (let k_choose_2 := uint (k * uint (k - 1)) / 2 in
        let '(successful, (cpcs, sds)) := factor_cov_matrix y in
        assert successful w
          (Done (push_all (Z.to_nat k) 0 sds
                   (push_all (Z.to_nat k_choose_2) 0 cpcs w))))).

(** The check and the output of [pos_ordered_unconstrain] at entry [i],
    and the outputs of a call that passes every check. *)
Definition pos_ordered_ok (y : vector) (i : nat) : bool :=
  if (i =? 0)%nat then dge (coeff y 0) d0
  else dge (coeff y i) (coeff y (i - 1)).

Definition pos_ordered_out (y : vector) (i : nat) : double :=
  if (i =? 0)%nat then log (coeff y 0)
  else log (dsub (coeff y i) (coeff y (i - 1))).

Definition pos_ordered_outputs (y : vector) : list double :=
  map (pos_ordered_out y) (seq 0 (length y)).

(** The same for [simplex_unconstrain], whose loop stops before the
    last entry. *)
Definition simplex_ok (y : vector) (i : nat) : bool := dge (coeff y i) d0.

Definition simplex_out (y : vector) (i : nat) : double :=
  dsub (log (coeff y i)) (log (coeff y (length y - 1))).

Definition simplex_outputs (y : vector) : list double :=
  map (simplex_out y) (seq 0 (length y - 1)).

(** The two checks before the loop of [simplex_unconstrain]. *)
Definition simplex_admitted (y : vector) : bool :=
  (0 <? length y)%nat && dlt (dabs (dsub d1 (sum y))) CONSTRAINT_TOLERANCE.

(** One call on a writer. *)
Inductive call :=
| Scalar (y : double)
| ScalarPos (y : double)
| ScalarLb (lb y : double)
| ScalarUb (ub y : double)
| ScalarLub (lb ub y : double)
| Corr (y : double)
| Prob (y : double)
| PosOrdered (y : vector)
| Simplex (y : vector)
| CorrMatrix (y : matrix)
| CovMatrix (y : matrix).

Definition run (c : call) (w : writer) : outcome :=
  match c with
  | Scalar y => scalar_unconstrain y w
  | ScalarPos y => scalar_pos_unconstrain y w
  | ScalarLb lb y => scalar_lb_unconstrain lb y w
  | ScalarUb ub y => scalar_ub_unconstrain ub y w
  | ScalarLub lb ub y => scalar_lub_unconstrain lb ub y w
  | Corr y => corr_unconstrain y w
  | Prob y => prob_unconstrain y w
  | PosOrdered y => pos_ordered_unconstrain y w
  | Simplex y => simplex_unconstrain y w
  | CorrMatrix y => corr_matrix_unconstrain y w
  | CovMatrix y => cov_matrix_unconstrain y w
  end.

(** The caller's side: the two vectors it handed to the constructor
    and the writer that was built from them. *)
Record caller := Caller {
  caller_data_r : list double;
  caller_data_i : list Z;
  the_writer : writer
}.

(** [std::vector<double> data_r; std::vector<int> data_i;
    writer<double> w(data_r, data_i);] *)
Definition construct (data_r : list double) (data_i : list Z) : caller :=
  Caller data_r data_i (mk_writer data_r data_i).

(** [w.f(...)] for one call [c]: the members of [w] are the only
    vectors the methods name. *)
Definition invoke (c : call) (env : caller) : caller * bool :=
  let o := run c (the_writer env) in
  (Caller (caller_data_r env) (caller_data_i env) (written o), raises o).

(** A sequence of calls, stopping at the first failed assertion. *)
Fixpoint invoke_all (cs : list call) (env : caller) : caller * bool :=
  match cs with
  | [] => (env, false)
  | c :: cs' =>
      let '(env', failed) := invoke c env in
      if failed then (env', true) else invoke_all cs' env'
  end.

End Writer.

(* ===================================================================== *)
(** * The walk-move ensemble sampler ([stan::mcmc::walk_move_ensemble]) *)
(* ===================================================================== *)

(** Results of the sampler's code: a value, an access out of range
    (undefined behaviour in C++), or a retry loop cut off by the fuel of
    the model. *)
Inductive result (A : Type) : Type :=
| Ok (a : A)
| Undefined
| OutOfFuel.
Arguments Ok {A} a.
Arguments Undefined {A}.
Arguments OutOfFuel {A}.

Definition rbind {A B : Type} (m : result A) (k : A -> result B) : result B :=
  match m with
  | Ok a => k a
  | Undefined => Undefined
  | OutOfFuel => OutOfFuel
  end.

Declare Scope result_scope.
Delimit Scope result_scope with result.
Notation "'do' x <- m ; k" := (rbind m (fun x => k))
  (at level 10, x pattern, m at level 100, k at level 200) : result_scope.
Local Open Scope result_scope.

(** [v[i]] and [v[i] = a] on a [std::vector] or an Eigen vector. *)
Definition at_ {A : Type} (l : list A) (i : nat) : result A :=
  match l !! i with
  | Some a => Ok a
  | None => Undefined
  end.

Definition store {A : Type} (l : list A) (i : nat) (a : A) : result (list A) :=
  if (i <? length l)%nat then Ok (<[i := a]> l) else Undefined.

(** [v[z]] for an [int] index. *)
Definition at_int {A : Type} (l : list A) (z : Z) : result A :=
  if z <? 0 then Undefined else at_ l (Z.to_nat z).

(** Coefficient-wise Eigen arithmetic; the operands must agree in size. *)
Definition vsub (a b : vector) : result vector :=
  if (length a =? length b)%nat then Ok (zip_with dsub a b) else Undefined.

Definition vadd (a b : vector) : result vector :=
  if (length a =? length b)%nat then Ok (zip_with dadd a b) else Undefined.

Definition vscale (z : double) (v : vector) : vector := map (dmul z) v.

(** The buffers a sweep writes, and the random source it draws from. *)
Record sweep (RNG : Type) := Sweep {
  rng : RNG;
  new_states : list vector;
  logp : vector;
  accept_prob : vector
}.
Arguments Sweep {RNG} _ _ _ _.
Arguments rng {RNG} _.
Arguments new_states {RNG} _.
Arguments logp {RNG} _.
Arguments accept_prob {RNG} _.

(** The number of [true] entries of a list. *)
Fixpoint count_true (bs : list bool) : nat :=
  match bs with
  | [] => O
  | b :: bs' => ((if b then 1 else 0) + count_true bs')%nat
  end.

Section Sampler.

(** The state of the generator behind [_rand_int] and [_rand_uniform],
    and the three draws of the base class and [stan::prob]. *)
Variable RNG : Type.
Variable bernoulli_rng : double -> RNG -> Z * RNG.
Variable normal_rng : double -> double -> RNG -> double * RNG.
Variable rand_uniform : RNG -> double * RNG.

(** [this->log_prob], the log-density oracle of the model, and
    [std::exp]. *)
Variable log_prob : vector -> double.
Variable exp : double -> double.

(** The loop [for (int i = 0; i < num_walkers - 1; i++)] of
    [choose_walkers], with [n] iterations left. *)
Fixpoint choose_loop (n : nat) (i index : Z) (walkers : list Z) (g : RNG)
    : list Z * RNG :=
  match n with
  | O => (walkers, g)
  | S n' =>
      let '(temp, g') := bernoulli_rng dhalf g in
      let walkers' :=
        if negb (temp =? 0) then
          if i >=? index then walkers ++ [i + 2] else walkers ++ [i + 1]
        else walkers in
      choose_loop n' (i + 1) index walkers' g'
  end.

(** [choose_walkers(index, num_walkers)]: [walkers] is empty before
    the loop, so its body runs at least once; one unit of fuel is one
    run of the body of [while (walkers.size() <= 1)]. *)
Fixpoint choose_walkers (fuel : nat) (index num_walkers : Z) (g : RNG)
    : result (list Z * RNG) :=
  match fuel with
  | O => OutOfFuel
  | S fuel' =>
      let '(walkers, g') :=
        choose_loop (Z.to_nat (num_walkers - 1)) 0 index [] g in
      if (length walkers <=? 1)%nat
      then choose_walkers fuel' index num_walkers g'
      else Ok (walkers, g')
  end.

(** The inner loop of [mean_walkers] over [j], for coefficient [i]:
    [mean[i] += cur_states[walker_index[j]-1](i) / walker_index.size()]. *)
Fixpoint mean_coeff (js : list Z) (size : nat) (cur_states : list vector)
    (i : nat) (acc : double) : result double :=
  match js with
  | [] => Ok acc
  | w :: js' =>
      do s <- at_int cur_states (w - 1);
      do x <- at_ s i;
      mean_coeff js' size cur_states i (dadd acc (ddiv x (double_of_nat size)))
  end.

(** The outer loop of [mean_walkers] over the coefficients. *)
Fixpoint mean_loop (coeffs : list nat) (walker_index : list Z)
    (cur_states : list vector) : result vector :=
  match coeffs with
  | [] => Ok []
  | i :: coeffs' =>
      do m <- mean_coeff walker_index (length walker_index) cur_states i d0;
      do ms <- mean_loop coeffs' walker_index cur_states;
      Ok (m :: ms)
  end.

Definition mean_walkers (walker_index : list Z) (cur_states : list vector)
    : result vector :=
  do s0 <- at_ cur_states 0;
  mean_loop (seq 0 (length s0)) walker_index cur_states.

(** The loop [for (int j = 0; j < rand_walkers.size(); j++)] of
    [ensemble_transition]:
    [new_states[i] += normal_rng(0.0, 1.0, _rand_int)
                      * (cur_states[rand_walkers[j]-1] - mean_rand_walkers)]. *)
Fixpoint propose_loop (js : list Z) (cur_states : list vector)
    (mean_rand_walkers : vector) (i : nat) (ns : list vector) (g : RNG)
    : result (list vector * RNG) :=
  match js with
  | [] => Ok (ns, g)
  | w :: js' =>
      let '(z, g') := normal_rng d0 d1 g in
      do s <- at_int cur_states (w - 1);
      do d <- vsub s mean_rand_walkers;
      do x <- at_ ns i;
      do x' <- vadd x (vscale z d);
      do ns' <- store ns i x';
      propose_loop js' cur_states mean_rand_walkers i ns' g'
  end.

(** Lines 73-84 of the body of the sweep for walker [i]: the initial
    log-density, the companions, their mean and the proposal. *)
Definition propose (fuel : nat) (i : nat) (cur_states : list vector)
    (st : sweep RNG) : result (double * sweep RNG) :=
  do cur_i <- at_ cur_states i;
  let logp0 := log_prob cur_i in
  let num_walkers := Z.of_nat (length cur_states) in
  do (rand_walkers, g1) <- choose_walkers fuel (Z.of_nat i) num_walkers (rng st);
  do mean_rand_walkers <- mean_walkers rand_walkers cur_states;
  do ns <- store (new_states st) i cur_i;
  do (ns', g2) <- propose_loop rand_walkers cur_states mean_rand_walkers i ns g1;
  Ok (logp0, Sweep g2 ns' (logp st) (accept_prob st)).

(** [logp(i)] after lines 87-90: the log-density of the proposal, a
    NaN replaced by positive infinity. *)
Definition logp_new (proposed : vector) : double :=
  let l := log_prob proposed in
  if isnan l then infinity else l.

(** [accept_prob(i)] after lines 93-95. *)
Definition acceptance (l logp0 : double) : double :=
  let a := exp (dsub l logp0) in
  if dgt a d1 then d1 else a.

(** Lines 87-100 of the body of the sweep for walker [i]. *)
Definition accept_reject (i : nat) (cur_states : list vector)
    (logp0 : double) (st : sweep RNG) : result (sweep RNG) :=
  do proposed <- at_ (new_states st) i;
  do lp <- store (logp st) i (logp_new proposed);
  do l <- at_ lp i;
  do ap <- store (accept_prob st) i (acceptance l logp0);
  do a <- at_ ap i;
  let '(u, g') := rand_uniform (rng st) in
  if dgt u a then
    do cur_i <- at_ cur_states i;
    do ns' <- store (new_states st) i cur_i;
    do lp' <- store lp i logp0;
    Ok (Sweep g' ns' lp' ap)
  else Ok (Sweep g' (new_states st) lp ap).

(** The body of [for (int i = 0; i < cur_states.size(); i++)]. *)
Definition walker_step (fuel : nat) (i : nat) (cur_states : list vector)
    (st : sweep RNG) : result (sweep RNG) :=
  do (logp0, st1) <- propose fuel i cur_states st;
  accept_reject i cur_states logp0 st1.

(** The sweep, with [n] walkers left and [i] the next one. *)
Fixpoint sweep_from (n i : nat) (fuel : nat) (cur_states : list vector)
    (st : sweep RNG) : result (sweep RNG) :=
  match n with
  | O => Ok st
  | S n' =>
      do st' <- walker_step fuel i cur_states st;
      sweep_from n' (S i) fuel cur_states st'
  end.

(** [ensemble_transition(cur_states, new_states, logp, accept_prob)],
    the three output buffers and the generator gathered in [st].
    [cur_states] and [new_states] are distinct objects. *)
Definition ensemble_transition (fuel : nat) (cur_states : list vector)
    (st : sweep RNG) : result (sweep RNG) :=
  sweep_from (length cur_states) 0 fuel cur_states st.

(** ** Vocabulary of the properties *)

(** The outcomes of [n] consecutive coin flips from [g] (a flip
    succeeds when [bernoulli_rng] returns a non-zero [int]), and the
    generator after them. *)
Fixpoint coins (n : nat) (g : RNG) : list bool * RNG :=
  match n with
  | O => ([], g)
  | S n' =>
      let '(temp, g') := bernoulli_rng dhalf g in
      let '(bs, g'') := coins n' g' in
      (negb (temp =? 0) :: bs, g'')
  end.

Definition successes (n : nat) (g : RNG) : nat :=
  count_true (fst (coins n g)).

(** The generator after [r] rounds of [n] flips. *)
Fixpoint after_rounds (r n : nat) (g : RNG) : RNG :=
  match r with
  | O => g
  | S r' => after_rounds r' n (snd (coins n g))
  end.

(** Round [r] (from 0) of the flips [choose_walkers] makes from [g]
    for [num_walkers] walkers has at least two successes. *)
Definition good_round (num_walkers : Z) (g : RNG) (r : nat) : Prop :=
  let n := Z.to_nat (num_walkers - 1) in
  (2 <= successes n (after_rounds r n g))%nat.

(** An ensemble of walkers of dimension [D], as the data model has it. *)
Definition ensemble (D : nat) (cur_states : list vector) : Prop :=
  Forall (fun s => length s = D) cur_states.

(** The contract of the uniform draw: a value in [[0, 1)]. *)
Definition uniform_01 : Prop :=
  forall g, dle d0 (fst (rand_uniform g)) = true
            /\ dlt (fst (rand_uniform g)) d1 = true.

(** What the sampler relies on from [std::exp] (C99, F.9.3.1): the
    exponential of positive infinity is positive infinity, that of a
    zero is exactly 1, and that of a number is a number that is not
    negative. *)
Definition exp_at_infinity : Prop := exp infinity = infinity.



(** The proposal loop on a local copy [x] of [new_states[i]]. *)
Fixpoint propose_value (js : list Z) (cur_states : list vector)
    (mean_rand_walkers : vector) (x : vector) (g : RNG)
    : result (vector * RNG) :=
  match js with
  | [] => Ok (x, g)
  | w :: js' =>
      let '(z, g') := normal_rng d0 d1 g in
      do s <- at_int cur_states (w - 1);
      do d <- vsub s mean_rand_walkers;
      do x' <- vadd x (vscale z d);
      propose_value js' cur_states mean_rand_walkers x' g'
  end.

(** What the body of the sweep for walker [i] computes from the
    current states and the generator alone: the values it leaves in
    slot [i] of [new_states], [logp] and [accept_prob], and the
    generator after it. *)
Definition walker_value (fuel : nat) (i : nat) (cur_states : list vector)
    (g : RNG) : result (vector * double * double * RNG) :=
  do cur_i <- at_ cur_states i;
  let logp0 := log_prob cur_i in
  let num_walkers := Z.of_nat (length cur_states) in
  do (rand_walkers, g1) <- choose_walkers fuel (Z.of_nat i) num_walkers g;
  do mean_rand_walkers <- mean_walkers rand_walkers cur_states;
  do (proposed, g2) <-
    propose_value rand_walkers cur_states mean_rand_walkers cur_i g1;
  let l := logp_new proposed in
  let a := acceptance l logp0 in
  let '(u, g3) := rand_uniform g2 in
  if dgt u a then Ok (cur_i, logp0, a, g3) else Ok (proposed, l, a, g3).

End Sampler.

(* ===================================================================== *)
(** * A fixed environment for running the model *)
(* ===================================================================== *)

(** The random source of the scenario of the test suite (every coin
    succeeds, every normal draw is 0, every uniform draw is 0), a flat
    log-density, and math functions that are exact on the IEEE special
    values, on 0 and on 1, and coarse elsewhere.  They serve to run the
    definitions above on concrete inputs. *)
Module Fixed.

Definition log (x : double) : double :=
  match x with
  | S754_nan => nan
  | S754_infinity false => infinity
  | S754_infinity true => nan
  | S754_zero _ => neg_infinity
  | S754_finite true _ _ => nan
  | S754_finite false _ _ =>
      if deq x d1 then d0 else if dlt x d1 then dminus1 else d1
  end.

Definition exp (x : double) : double :=
  match x with
  | S754_nan => nan
  | S754_infinity false => infinity
  | S754_infinity true => d0
  | S754_zero _ => d1
  | S754_finite true _ _ => dhalf
  | S754_finite false _ _ => d2
  end.

Definition logit (a : double) : double := log (ddiv a (dsub d1 a)).

Definition atanh (y : double) : double :=
  if deq y d1 then infinity
  else if deq y dminus1 then neg_infinity
  else if dlt (dabs y) d1 then y else nan.

Definition factor_cov_matrix (y : matrix) : bool * (list double * list double) :=
  (true, (repeat d0 (Z.to_nat (rows y * (rows y - 1) / 2)),
          repeat d1 (Z.to_nat (rows y)))).

Definition RNG := nat.
Definition bernoulli_rng (theta : double) (g : RNG) : Z * RNG := (1, S g).
Definition normal_rng (mu sigma : double) (g : RNG) : double * RNG := (d0, S g).
Definition rand_uniform (g : RNG) : double * RNG := (d0, S g).

(** A source whose uniform draws are all 0.5. *)
Definition rand_uniform_half (g : RNG) : double * RNG := (dhalf, S g).

(** An alternating source of normal draws: 1, 0, 1, 0, ... by the
    parity of the state. *)
Definition normal_rng_alt (mu sigma : double) (g : RNG) : double * RNG :=
  (if Nat.even g then d1 else d0, S g).

(** Log-densities: zero everywhere; minus infinity everywhere; not a
    number everywhere; zero at the origin and not a number away from
    it. *)
Definition log_prob_flat (x : vector) : double := d0.
Definition log_prob_origin (x : vector) : double :=
  if forallb is_zero x then d0 else nan.

(** The ensemble of the scenario: three walkers in dimension 1 at 0, 1
    and 2, and output buffers of the same shape. *)
Definition walkers : list vector := [[d0]; [d1]; [d2]].
Definition buffers : sweep RNG :=
  Sweep 0%nat [[d0]; [d0]; [d0]] [d0; d0; d0] [d0; d0; d0].

End Fixed.


(* ===================================================================== *)
(** * Vocabulary of the further properties *)
(* ===================================================================== *)

(** An outcome from its success flag and the writer it leaves. *)
Definition finish (ok : bool) (w : writer) : outcome :=
  if ok then Done w else ConstraintViolation w.

(** The number of values a successful call appends: one for a scalar,
    [K] for a positive ordered vector of size [K], [K - 1] for a simplex,
    [K (K - 1) / 2] for a [K x K] correlation matrix and [K] more for a
    covariance matrix. *)
Definition expected_count (c : call) : Z :=
  match c with
  | PosOrdered y => Z.of_nat (length y)
  | Simplex y => Z.of_nat (length y) - 1
  | CorrMatrix y => rows y * (rows y - 1) / 2
  | CovMatrix y => rows y * (rows y - 1) / 2 + rows y
  | _ => 1
  end.

(** A matrix call on a matrix of at most [2^16] rows; any other call. *)
Definition moderate (c : call) : Prop :=
  match c with
  | CorrMatrix y | CovMatrix y => 0 <= rows y <= 65536
  | _ => True
  end.

(** Some argument of a checked scalar or vector call is NaN: the value,
    a bound, or an entry. *)
Definition mentions_nan (c : call) : bool :=
  match c with
  | ScalarPos y | Corr y | Prob y => isnan y
  | ScalarLb b y | ScalarUb b y => isnan b || isnan y
  | ScalarLub lb ub y => isnan lb || isnan ub || isnan y
  | PosOrdered y | Simplex y => existsb isnan y
  | Scalar _ | CorrMatrix _ | CovMatrix _ => false
  end.

(** The values a call appends, read off a run on an empty writer. *)
Definition outputs (log logit atanh : double -> double)
    (factor_cov_matrix : matrix -> bool * (list double * list double))
    (c : call) : list double :=
  data_r_ (written (run log logit atanh factor_cov_matrix c (Writer [] []))).

(** The call raises the constraint violation (on one writer as on any
    other). *)
Definition raising (log logit atanh : double -> double)
    (factor_cov_matrix : matrix -> bool * (list double * list double))
    (c : call) : bool :=
  raises (run log logit atanh factor_cov_matrix c (Writer [] [])).

(** The place of a double that is not NaN in the order of the
    comparison operators: minus infinity, the negative numbers, the
    zeros, the positive numbers, plus infinity; within a sign by exponent
    and then by mantissa. *)
Definition dkey (x : double) : option (Z * Z * Z) :=
  match x with
  | S754_nan => None
  | S754_infinity true => Some (-2, 0, 0)
  | S754_finite true m e => Some (-1, - e, - Zpos m)
  | S754_zero _ => Some (0, 0, 0)
  | S754_finite false m e => Some (1, e, Zpos m)
  | S754_infinity false => Some (2, 0, 0)
  end.

Definition lex_le (a b : Z * Z * Z) : Prop :=
  let '(a1, a2, a3) := a in
  let '(b1, b2, b3) := b in
  a1 < b1 \/ (a1 = b1 /\ (a2 < b2 \/ (a2 = b2 /\ a3 <= b3))).

(** [std::exp] of NaN is NaN (C99, F.9.3.1). *)
Definition exp_propagates_nan (exp : double -> double) : Prop :=
  forall x, isnan x = true -> isnan (exp x) = true.

(** The generator after [k] standard-normal draws. *)
Fixpoint after_normals {RNG : Type}
    (normal_rng : double -> double -> RNG -> double * RNG)
    (k : nat) (g : RNG) : RNG :=
  match k with
  | O => g
  | S k' => after_normals normal_rng k' (snd (normal_rng d0 d1 g))
  end.
(* ===================================================================== *)
(** * Facts about binary64 comparison and subtraction *)
(* ===================================================================== *)

Lemma SFcompare_antisym (x y : double) :
  SFcompare y x = option_map CompOpp (SFcompare x y).
Proof.
  destruct x as [sx|sx| |sx mx ex], y as [sy|sy| |sy my ey]; simpl;
    try reflexivity;
    try (destruct sx; reflexivity); try (destruct sy; reflexivity);
    try (destruct sx, sy; reflexivity).
  destruct sx, sy; simpl; try reflexivity;
    rewrite (Z.compare_antisym ex ey);
    destruct (ex ?= ey) eqn:E; simpl; try reflexivity;
    rewrite (Pos.compare_cont_antisym mx my Eq); simpl;
    destruct (Pos.compare_cont Eq mx my); reflexivity.
Qed.

Lemma dlt_not_dgt (x y : double) : dlt x y = true -> dgt x y = false.
Proof.
  unfold dlt, dgt, SFltb. rewrite (SFcompare_antisym x y).
  destruct (SFcompare x y) as [[]|]; simpl; congruence.
Qed.

Lemma dle_not_dgt (x y : double) : dle x y = true -> dgt x y = false.
Proof.
  unfold dle, dgt, SFleb, SFltb. rewrite (SFcompare_antisym x y).
  destruct (SFcompare x y) as [[]|]; simpl; congruence.
Qed.



(** Equality with a finite number is structural. *)
Lemma deq_finite_eq (x : double) s m e :
  deq x (S754_finite s m e) = true -> x = S754_finite s m e.
Proof.
  unfold deq, SFeqb.
  destruct x as [sx|sx| |sx mx ex]; simpl;
    try discriminate; try (destruct s; discriminate);
    try (destruct sx; discriminate).
  destruct sx, s; simpl; try discriminate;
    destruct (ex ?= e) eqn:E; try discriminate;
    destruct (Pos.compare_cont Eq mx m) eqn:M; try discriminate;
    apply Z.compare_eq in E; apply Pos.compare_eq in M; subst; reflexivity.
Qed.

Lemma dsub_self_finite s m e :
  dsub (S754_finite s m e) (S754_finite s m e) = S754_zero false.
Proof.
  unfold dsub; simpl. rewrite Z.sub_diag. reflexivity.
Qed.

(** The difference of two equal doubles is a zero, or NaN when both are
    the same infinity. *)
Lemma deq_dsub (a b : double) :
  deq a b = true -> is_zero (dsub a b) = true \/ dsub a b = nan.
Proof.
  intros H. destruct b as [sb|sb| |sb mb eb].
  - destruct a as [sa|sa| |sa ma ea]; try discriminate H.
    + left. destruct sa, sb; reflexivity.
    + destruct sa; discriminate H.
    + destruct sa; discriminate H.
  - destruct a as [sa|sa| |sa ma ea]; try discriminate H.
    + destruct sb; discriminate H.
    + destruct sa, sb; try discriminate H; right; reflexivity.
    + destruct sb; discriminate H.
  - destruct a; discriminate H.
  - apply deq_finite_eq in H. subst a. left.
    rewrite dsub_self_finite. reflexivity.
Qed.

Lemma deq_sym (a b : double) : deq a b = deq b a.
Proof.
  unfold deq, SFeqb. rewrite (SFcompare_antisym b a).
  destruct (SFcompare b a) as [[]|]; reflexivity.
Qed.

Lemma ddiv_zero_or_nan (x y : double) :
  is_zero x = true \/ x = nan -> is_zero y = true \/ y = nan ->
  ddiv x y = nan.
Proof.
  unfold nan.
  destruct x, y; intros [Hx|Hx] [Hy|Hy]; try discriminate; reflexivity.
Qed.

Lemma dsub_inf_finite (x : double) :
  is_finite x = true -> dsub infinity x = infinity.
Proof. destruct x; simpl; intros; try discriminate; reflexivity. Qed.

Lemma deq_cases (a b : double) :
  deq a b = true -> a = b \/ (is_zero a = true /\ is_zero b = true).
Proof.
  intros H. destruct b as [sb|sb| |sb mb eb].
  - right. destruct a as [sa|sa| |sa ma ea]; try discriminate H; auto;
      destruct sa; discriminate H.
  - left. destruct a as [sa|sa| |sa ma ea]; try discriminate H.
    + destruct sb; discriminate H.
    + destruct sa, sb; try discriminate H; reflexivity.
    + destruct sb; discriminate H.
  - destruct a; discriminate H.
  - left. apply deq_finite_eq, H.
Qed.

Lemma deq_dle (a b : double) : deq a b = true -> dle a b = true.
Proof.
  unfold deq, dle, SFeqb, SFleb.
  destruct (SFcompare a b) as [[]|]; congruence.
Qed.

Lemma deq_trans (a b c : double) :
  deq a b = true -> deq b c = true -> deq a c = true.
Proof.
  intros Hab Hbc.
  destruct (deq_cases a b Hab) as [->|[Ha Hb]]; [exact Hbc|].
  destruct (deq_cases b c Hbc) as [<-|[_ Hc]]; [exact Hab|].
  destruct a, c; try discriminate; reflexivity.
Qed.

(* ===================================================================== *)
(** * The writer: what a call appends, and where it stops *)
(* ===================================================================== *)

Lemma append_nil (w : writer) : append w [] = w.
Proof. destruct w; unfold append; simpl. now rewrite app_nil_r. Qed.

Lemma push_back_append (w : writer) (x : double) : push_back w x = append w [x].
Proof. reflexivity. Qed.

Lemma append_append (w : writer) (a b : list double) :
  append (append w a) b = append w (a ++ b).
Proof. unfold append; simpl. now rewrite app_assoc. Qed.

Lemma guarded_loop_done check out n : forall i w,
  (forall j, (i <= j < i + n)%nat -> check j = true) ->
  guarded_loop check out n i w = Done (append w (map out (seq i n))).
Proof.
  induction n as [|n IH]; intros i w H; simpl.
  - now rewrite append_nil.
  - rewrite (H i) by lia. simpl. rewrite IH by (intros; apply H; lia).
    now rewrite push_back_append, append_append.
Qed.

Lemma guarded_loop_violation check out n : forall i w w',
  guarded_loop check out n i w = ConstraintViolation w' ->
  exists m, (m < n)%nat
    /\ (forall j, (i <= j < i + m)%nat -> check j = true)
    /\ check (i + m)%nat = false
    /\ w' = append w (map out (seq i m)).
Proof.
  induction n as [|n IH]; intros i w w' H; simpl in H.
  - discriminate.
  - destruct (check i) eqn:C; simpl in H.
    + apply IH in H as (m & Hm & Hok & Hbad & ->).
      exists (S m). split; [lia|]. split; [|split].
      * intros j Hj. destruct (Nat.eq_dec j i) as [->|]; [exact C|].
        apply Hok. lia.
      * now replace (i + S m)%nat with (S i + m)%nat by lia.
      * simpl. now rewrite push_back_append, append_append.
    + injection H as <-. exists 0%nat.
      split; [lia|]. split; [intros; lia|]. split.
      * now rewrite Nat.add_0_r.
      * simpl. now rewrite append_nil.
Qed.

Lemma firstn_map_seq {A : Type} (f : nat -> A) (m n : nat) :
  (m <= n)%nat -> firstn m (map f (seq 0 n)) = map f (seq 0 m).
Proof.
  intros H. rewrite firstn_map. f_equal.
  replace n with (m + (n - m))%nat by lia.
  rewrite seq_app, firstn_app, length_seq, Nat.sub_diag. simpl.
  rewrite app_nil_r. apply firstn_all2. rewrite length_seq. lia.
Qed.

Section WriterFacts.

Variables log logit atanh : double -> double.
Variable factor_cov_matrix : matrix -> bool * (list double * list double).

Lemma pos_ordered_loop_guarded (y : vector) n : forall i w,
  pos_ordered_loop log n (S i) y w
  = guarded_loop (pos_ordered_ok y) (pos_ordered_out log y) n (S i) w.
Proof.
  induction n as [|n IH]; intros i w; simpl; [reflexivity|].
  now rewrite IH.
Qed.

Lemma pos_ordered_unconstrain_guarded (y : vector) (w : writer) :
  pos_ordered_unconstrain log y w
  = guarded_loop (pos_ordered_ok y) (pos_ordered_out log y) (length y) 0 w.
Proof.
  unfold pos_ordered_unconstrain. destruct y as [|y0 y]; [reflexivity|].
  change (length (y0 :: y) - 1)%nat with (length y - 0)%nat.
  rewrite Nat.sub_0_r, pos_ordered_loop_guarded. reflexivity.
Qed.

Lemma simplex_loop_guarded (y : vector) n : forall i w,
  simplex_loop log n i y (log (coeff y (length y - 1))) w
  = guarded_loop (simplex_ok y) (simplex_out log y) n i w.
Proof.
  induction n as [|n IH]; intros i w; simpl; [reflexivity|].
  now rewrite IH.
Qed.

Lemma simplex_unconstrain_guarded (y : vector) (w : writer) :
  simplex_unconstrain log y w
  = if simplex_admitted y
    then guarded_loop (simplex_ok y) (simplex_out log y) (length y - 1) 0 w
    else ConstraintViolation w.
Proof.
  unfold simplex_unconstrain, simplex_admitted, assert.
  destruct (0 <? length y)%nat; simpl; [|reflexivity].
  destruct (dlt _ _); [|reflexivity].
  apply simplex_loop_guarded.
Qed.

(** A simplex call succeeds as soon as the size and sum checks pass
    and the entries before the last are non-negative. *)
Lemma simplex_unconstrain_done (y : vector) (w : writer) :
  simplex_admitted y = true ->
  (forall i, (i < length y - 1)%nat -> dge (coeff y i) d0 = true) ->
  simplex_unconstrain log y w = Done (append w (simplex_outputs log y)).
Proof.
  intros Ha Hy. rewrite simplex_unconstrain_guarded, Ha.
  apply guarded_loop_done. intros j Hj. apply Hy. lia.
Qed.

Lemma matrix_violation_untouched (c : call) (w w' : writer) :
  match c with CorrMatrix _ | CovMatrix _ => True | _ => False end ->
  run log logit atanh factor_cov_matrix c w = ConstraintViolation w' ->
  w' = w.
Proof.
  destruct c; try contradiction; intros _; simpl;
    unfold corr_matrix_unconstrain, cov_matrix_unconstrain, assert;
    destruct (0 <? _); try congruence;
    destruct (_ =? _); try congruence;
    destruct (factor_cov_matrix y) as [ok [cpcs sds]];
    repeat match goal with
           | |- context [if ?b then _ else _] => destruct b
           end; congruence.
Qed.

Lemma scalar_violation_untouched (c : call) (w w' : writer) :
  match c with
  | PosOrdered _ | Simplex _ | CorrMatrix _ | CovMatrix _ => False
  | _ => True
  end ->
  run log logit atanh factor_cov_matrix c w = ConstraintViolation w' ->
  w' = w.
Proof.
  destruct c; try contradiction; intros _; simpl;
    unfold scalar_unconstrain, scalar_pos_unconstrain, scalar_lb_unconstrain,
      scalar_ub_unconstrain, scalar_lub_unconstrain, corr_unconstrain,
      prob_unconstrain, assert;
    repeat match goal with
           | |- context [if ?b then _ else _] => destruct b
           end; congruence.
Qed.

(** No call touches the vectors the caller passed to the constructor. *)
Lemma invoke_all_caller (cs : list call) : forall env env' failed,
  invoke_all log logit atanh factor_cov_matrix cs env = (env', failed) ->
  caller_data_r env' = caller_data_r env
  /\ caller_data_i env' = caller_data_i env.
Proof.
  induction cs as [|c cs IH]; intros env env' failed H; simpl in H.
  - injection H as <- _. auto.
  - destruct (raises _).
    + injection H as <- _. auto.
    + apply IH in H. simpl in H. exact H.
Qed.

End WriterFacts.

(* ===================================================================== *)
(** * Properties of the writer *)
(* ===================================================================== *)

(** C1.  The writer appends to its own members, which the constructor
    copied from the caller's vectors.  Whatever calls are made on a
    writer built from [data_r] and [data_i], the caller's two vectors
    are what they were; a caller that builds a writer from two empty
    vectors and calls [scalar_unconstrain(1.0)] still holds two empty
    vectors, while the private real buffer of the writer holds the
    value.  The constructor is documented to write to the vectors it is
    given. *)
Theorem writer_appends_to_private_copy
    (log logit atanh : double -> double)
    (factor_cov_matrix : matrix -> bool * (list double * list double))
    (cs : list call) (data_r : list double) (data_i : list Z) :
  let run_all := invoke_all log logit atanh factor_cov_matrix in
  (caller_data_r (fst (run_all cs (construct data_r data_i))) = data_r
   /\ caller_data_i (fst (run_all cs (construct data_r data_i))) = data_i)
  /\ run_all [Scalar d1] (construct [] [])
     = (Caller [] [] (Writer [d1] []), false).
Proof.
  cbv zeta. split; [|reflexivity].
  destruct (invoke_all _ _ _ _ cs _) as [env' failed] eqn:E.
  apply invoke_all_caller in E. exact E.
Qed.

(** C4, as the claim states it, fails: the non-negative vector
    [(1, 2e-8)] sums to the double [1 + 2e-8], and the call raises the
    constraint violation without appending anything. *)
Lemma simplex_sum_1_plus_2e8_raises :
  let y := [d1; d2e_8] in
  forallb (fun x => dge x d0) y = true
  /\ sum y = dadd d1 d2e_8
  /\ simplex_unconstrain Fixed.log y (mk_writer [] [])
     = ConstraintViolation (mk_writer [] []).
Proof. vm_compute. repeat split. Qed.

(** C4, amended.  On a vector of non-negative entries whose sum deviates
    from 1 by less than [1e-8], [simplex_unconstrain] raises nothing and
    leaves the real buffer followed by [K-1] outputs; on every vector
    whose sum is [1 + 2e-8] or [1 + 1e-6] it raises the constraint
    violation and leaves the writer as it was. *)
Theorem simplex_tolerance (log : double -> double) (y : vector) (w : writer) :
  ((forall i, (i < length y)%nat -> dge (coeff y i) d0 = true) ->
   dlt (dabs (dsub d1 (sum y))) CONSTRAINT_TOLERANCE = true ->
   raises (simplex_unconstrain log y w) = false
   /\ data_r_ (written (simplex_unconstrain log y w))
      = data_r_ w ++ simplex_outputs log y
   /\ data_i_ (written (simplex_unconstrain log y w)) = data_i_ w
   /\ length (simplex_outputs log y) = (length y - 1)%nat)
  /\ (sum y = dadd d1 d2e_8 \/ sum y = dadd d1 d1e_6 ->
      raises (simplex_unconstrain log y w) = true
      /\ written (simplex_unconstrain log y w) = w).
Proof.
  split.
  - intros Hy Hsum.
    assert (Hne : y <> []) by (intros ->; discriminate Hsum).
    rewrite (simplex_unconstrain_done log y w).
    + repeat split. unfold simplex_outputs.
      now rewrite length_map, length_seq.
    + unfold simplex_admitted. rewrite Hsum.
      destruct y; [contradiction|reflexivity].
    + intros i Hi. apply Hy. lia.
  - intros Hs. rewrite simplex_unconstrain_guarded.
    unfold simplex_admitted.
    assert (E : dlt (dabs (dsub d1 (sum y))) CONSTRAINT_TOLERANCE = false)
      by (destruct Hs as [-> | ->]; reflexivity).
    rewrite E, andb_false_r. split; reflexivity.
Qed.

Lemma simplex_tolerance_witness :
  raises (simplex_unconstrain Fixed.log [d1; d5e_9] (mk_writer [] [])) = false
  /\ data_r_ (written (simplex_unconstrain Fixed.log [d1; d5e_9]
                         (mk_writer [] [])))
     = data_r_ (mk_writer [] []) ++ simplex_outputs Fixed.log [d1; d5e_9]
  /\ data_i_ (written (simplex_unconstrain Fixed.log [d1; d5e_9]
                         (mk_writer [] [])))
     = data_i_ (mk_writer [] [])
  /\ length (simplex_outputs Fixed.log [d1; d5e_9]) = 1%nat.
Proof.
  apply (simplex_tolerance Fixed.log [d1; d5e_9] (mk_writer [] [])).
  - intros i Hi. simpl in Hi.
    destruct i as [|[|i]]; [reflexivity|reflexivity|lia].
  - reflexivity.
Defined.

(** C5.  [simplex_unconstrain] never looks at the sign of the last entry:
    on [(2, -1)], whose sum is 1 and whose last entry is negative, it
    raises nothing and appends [log(2) - log(-1)]. *)
Theorem simplex_negative_last_entry_accepted
    (log : double -> double) (w : writer) :
  let y := [d2; dminus1] in
  sum y = d1
  /\ dlt (coeff y 1) d0 = true
  /\ simplex_unconstrain log y w
     = Done (push_back w (dsub (log d2) (log dminus1))).
Proof. cbv zeta. repeat split. Qed.

(** C6, as the claim states it, fails: [pos_ordered_unconstrain] on
    [(1, 0)] has appended [log(1) = 0] when the second entry fails its
    check, and [simplex_unconstrain] on [(1, -1, 1)] has appended
    [log(1) - log(1) = 0], the output of the first entry, when the second
    fails. *)
Lemma violation_after_partial_output :
  pos_ordered_unconstrain Fixed.log [d1; d0] (mk_writer [] [])
  = ConstraintViolation (mk_writer [d0] [])
  /\ simplex_unconstrain Fixed.log [d1; dminus1; d1] (mk_writer [] [])
     = ConstraintViolation (mk_writer [d0] []).
Proof. vm_compute. repeat split. Qed.

(** C6, amended.  When a call raises the constraint violation, the
    integer buffer is as before and the real buffer is the one before
    the call followed by the outputs of the entries that precede the
    first violating one.  The scalar and the matrix transforms, and a
    simplex call that fails its size or sum check, append nothing; the
    positive-ordered and simplex transforms that fail at entry [m] have
    appended the [m] outputs of the valid entries before it. *)
Theorem violation_leaves_prefix
    (log logit atanh : double -> double)
    (factor_cov_matrix : matrix -> bool * (list double * list double))
    (c : call) (w w' : writer) :
  run log logit atanh factor_cov_matrix c w = ConstraintViolation w' ->
  match c with
  | PosOrdered y =>
      exists m, (m < length y)%nat
        /\ (forall j, (j < m)%nat -> pos_ordered_ok y j = true)
        /\ pos_ordered_ok y m = false
        /\ w' = append w (firstn m (pos_ordered_outputs log y))
  | Simplex y =>
      (simplex_admitted y = false /\ w' = w)
      \/ (simplex_admitted y = true
          /\ exists m, (m < length y - 1)%nat
               /\ (forall j, (j < m)%nat -> simplex_ok y j = true)
               /\ simplex_ok y m = false
               /\ w' = append w (firstn m (simplex_outputs log y)))
  | _ => w' = w
  end.
Proof.
  intros H. destruct c;
    try (apply (scalar_violation_untouched log logit atanh factor_cov_matrix)
           in H; [exact H|exact I]);
    try (apply (matrix_violation_untouched log logit atanh factor_cov_matrix)
           in H; [exact H|exact I]).
  - simpl in H. rewrite pos_ordered_unconstrain_guarded in H.
    apply guarded_loop_violation in H as (m & Hm & Hok & Hbad & ->).
    exists m. split; [exact Hm|]. split; [intros; apply Hok; lia|].
    split; [exact Hbad|].
    unfold pos_ordered_outputs. rewrite firstn_map_seq by lia. reflexivity.
  - simpl in H. rewrite simplex_unconstrain_guarded in H.
    destruct (simplex_admitted y) eqn:Ha.
    + right. split; [reflexivity|].
      apply guarded_loop_violation in H as (m & Hm & Hok & Hbad & ->).
      exists m. split; [exact Hm|]. split; [intros; apply Hok; lia|].
      split; [exact Hbad|].
      unfold simplex_outputs. rewrite firstn_map_seq by lia. reflexivity.
    + left. split; [reflexivity|congruence].
Qed.

Lemma violation_leaves_prefix_witness :
  exists m, (m < 2)%nat
    /\ (forall j, (j < m)%nat -> pos_ordered_ok [d1; d0] j = true)
    /\ pos_ordered_ok [d1; d0] m = false
    /\ mk_writer [d0] []
       = append (mk_writer [] [])
           (firstn m (pos_ordered_outputs Fixed.log [d1; d0])).
Proof.
  apply (violation_leaves_prefix Fixed.log Fixed.logit Fixed.atanh
           Fixed.factor_cov_matrix (PosOrdered [d1; d0]) (mk_writer [] [])
           (mk_writer [d0] [])).
  reflexivity.
Defined.

(** C10.  With equal bounds and [y] equal to them, both checks of
    [scalar_lub_unconstrain] pass, the quotient [(y - lb) / (ub - lb)] is
    not a number, no constraint violation is raised, and the real buffer
    after the call is the buffer before it followed by one value,
    [logit] of that quotient, which is NaN for a [logit] that propagates
    NaN. *)
Theorem scalar_lub_equal_bounds (logit : double -> double)
    (lb ub y : double) (w : writer) :
  logit nan = nan ->
  deq lb ub = true ->
  deq y lb = true ->
  dle lb y = true
  /\ dle y ub = true
  /\ ddiv (dsub y lb) (dsub ub lb) = nan
  /\ raises (scalar_lub_unconstrain logit lb ub y w) = false
  /\ data_r_ (written (scalar_lub_unconstrain logit lb ub y w))
     = data_r_ w ++ [nan]
  /\ data_i_ (written (scalar_lub_unconstrain logit lb ub y w)) = data_i_ w.
Proof.
  intros Hlogit Hb Hy.
  assert (Hlo : dle lb y = true) by (apply deq_dle; now rewrite deq_sym).
  assert (Hhi : dle y ub = true) by (apply deq_dle; eapply deq_trans; eauto).
  assert (Hq : ddiv (dsub y lb) (dsub ub lb) = nan).
  { apply ddiv_zero_or_nan; apply deq_dsub; [exact Hy|now rewrite deq_sym]. }
  repeat (split; [assumption|]).
  unfold scalar_lub_unconstrain, assert. rewrite Hlo, Hhi, Hq, Hlogit.
  repeat split.
Qed.

Lemma scalar_lub_equal_bounds_witness :
  dle d0 d0 = true
  /\ dle d0 d0 = true
  /\ ddiv (dsub d0 d0) (dsub d0 d0) = nan
  /\ raises (scalar_lub_unconstrain Fixed.logit d0 d0 d0 (mk_writer [d1] []))
     = false
  /\ data_r_ (written (scalar_lub_unconstrain Fixed.logit d0 d0 d0
                         (mk_writer [d1] [])))
     = data_r_ (mk_writer [d1] []) ++ [nan]
  /\ data_i_ (written (scalar_lub_unconstrain Fixed.logit d0 d0 d0
                         (mk_writer [d1] [])))
     = data_i_ (mk_writer [d1] []).
Proof.
  apply (scalar_lub_equal_bounds Fixed.logit d0 d0 d0 (mk_writer [d1] []));
    reflexivity.
Defined.

(* ===================================================================== *)
(** * The sampler: results, indexing and the companion set *)
(* ===================================================================== *)

Lemma rbind_ok {A B : Type} (m : result A) (k : A -> result B) (b : B) :
  rbind m k = Ok b -> exists a, m = Ok a /\ k a = Ok b.
Proof. destruct m; simpl; intros H; try discriminate; eauto. Qed.

Lemma at_ok {A : Type} (l : list A) (i : nat) (a : A) :
  at_ l i = Ok a <-> l !! i = Some a.
Proof.
  unfold at_. destruct (l !! i); split; intros H; try discriminate;
    injection H as ->; reflexivity.
Qed.

Lemma at_lookup {A : Type} (l : list A) (i : nat) (a : A) :
  l !! i = Some a -> at_ l i = Ok a.
Proof. apply at_ok. Qed.

Lemma store_ok {A : Type} (l l' : list A) (i : nat) (a : A) :
  store l i a = Ok l' <-> (i < length l)%nat /\ l' = <[i := a]> l.
Proof.
  unfold store. destruct (Nat.ltb_spec i (length l)); split.
  - intros H'. injection H' as <-. auto.
  - intros [_ ->]. reflexivity.
  - discriminate.
  - intros [H' _]. lia.
Qed.

Lemma store_in_range {A : Type} (l : list A) (i : nat) (a : A) :
  (i < length l)%nat -> store l i a = Ok (<[i := a]> l).
Proof. intros H. apply store_ok. auto. Qed.

(** Takes a successful bind apart. *)
Tactic Notation "bind_inv" hyp(H) "as" simple_intropattern(a) ident(Ha) :=
  apply rbind_ok in H as (a & Ha & H).

Section SamplerFacts.

Variable RNG : Type.
Variable bernoulli_rng : double -> RNG -> Z * RNG.
Variable normal_rng : double -> double -> RNG -> double * RNG.
Variable rand_uniform : RNG -> double * RNG.
Variable log_prob : vector -> double.
Variable exp : double -> double.

Local Abbreviation choose_loop := (choose_loop RNG bernoulli_rng).
Local Abbreviation choose_walkers := (choose_walkers RNG bernoulli_rng).
Local Abbreviation coins := (coins RNG bernoulli_rng).
Local Abbreviation successes := (successes RNG bernoulli_rng).
Local Abbreviation after_rounds := (after_rounds RNG bernoulli_rng).
Local Abbreviation good_round := (good_round RNG bernoulli_rng).

(** Every index the loop adds lies between [i + 1] and [i + n + 1] and
    differs from [index + 1]. *)
Lemma choose_loop_indices n : forall i index walkers g,
  exists added,
    fst (choose_loop n i index walkers g) = walkers ++ added
    /\ Forall (fun w => i + 1 <= w <= i + Z.of_nat n + 1 /\ w <> index + 1)
         added.
Proof.
  induction n as [|n IH]; intros i index walkers g; simpl.
  - exists []. split; [now rewrite app_nil_r|constructor].
  - destruct (bernoulli_rng dhalf g) as [temp g'].
    match goal with
    | |- context [choose_loop n (i + 1) index ?ws g'] =>
        destruct (IH (i + 1) index ws g') as (added & -> & Hall)
    end.
    assert (Hall' : Forall (fun w => i + 1 <= w <= i + Z.of_nat (S n) + 1
                                     /\ w <> index + 1) added).
    { eapply Forall_impl; [exact Hall|]. simpl. intros w Hw. lia. }
    destruct (negb (temp =? 0)).
    + destruct (Z.geb_spec i index).
      * exists ((i + 2) :: added). rewrite <- app_assoc. split; [reflexivity|].
        constructor; [lia|exact Hall'].
      * exists ((i + 1) :: added). rewrite <- app_assoc. split; [reflexivity|].
        constructor; [lia|exact Hall'].
    + exists added. split; [reflexivity|exact Hall'].
Qed.

(** The loop consumes [n] flips and adds one index per success. *)
Lemma choose_loop_coins n : forall i index walkers g,
  snd (choose_loop n i index walkers g) = snd (coins n g)
  /\ length (fst (choose_loop n i index walkers g))
     = (length walkers + successes n g)%nat.
Proof.
  unfold successes.
  induction n as [|n IH]; intros i index walkers g; simpl.
  - split; [reflexivity|lia].
  - destruct (bernoulli_rng dhalf g) as [temp g'].
    match goal with
    | |- context [choose_loop n (i + 1) index ?ws g'] =>
        destruct (IH (i + 1) index ws g') as [-> ->]
    end.
    destruct (coins n g') as [bs g''] eqn:C. simpl.
    split; [reflexivity|].
    destruct (negb (temp =? 0)); simpl.
    + destruct (i >=? index); rewrite length_app; simpl; lia.
    + reflexivity.
Qed.

Lemma choose_walkers_post fuel : forall index num_walkers g ws g',
  choose_walkers fuel index num_walkers g = Ok (ws, g') ->
  (2 <= length ws)%nat
  /\ Forall (fun w => 1 <= w <= Z.max 1 num_walkers /\ w <> index + 1) ws.
Proof.
  induction fuel as [|fuel IH]; intros index num_walkers g ws g' H; simpl in H.
  - discriminate.
  - destruct (choose_loop _ 0 index [] g) as [walkers g1] eqn:L.
    destruct (Nat.leb_spec (length walkers) 1).
    + eapply IH, H.
    + injection H as <- <-. split; [lia|].
      destruct (choose_loop_indices (Z.to_nat (num_walkers - 1)) 0 index [] g)
        as (added & Hfst & Hall).
      rewrite L in Hfst. simpl in Hfst. subst walkers.
      eapply Forall_impl; [exact Hall|]. simpl. intros w Hw. lia.
Qed.

Lemma choose_walkers_returns r : forall index num_walkers g,
  good_round num_walkers g r ->
  exists ws g', choose_walkers (S r) index num_walkers g = Ok (ws, g').
Proof.
  unfold good_round.
  induction r as [|r IH]; intros index num_walkers g Hgood;
    cbn [choose_walkers];
    destruct (choose_loop_coins (Z.to_nat (num_walkers - 1)) 0 index [] g)
      as [Hsnd Hlen];
    destruct (choose_loop _ 0 index [] g) as [walkers g1] eqn:L;
    simpl in Hsnd, Hlen; subst g1.
  - simpl in Hgood.
    destruct (Nat.leb_spec (length walkers) 1); [lia|eauto].
  - destruct (Nat.leb_spec (length walkers) 1); [|eauto].
    apply IH. exact Hgood.
Qed.

(** ** The proposal *)

Local Abbreviation propose_loop := (propose_loop RNG normal_rng).
Local Abbreviation propose_value := (propose_value RNG normal_rng).
Local Abbreviation propose := (propose RNG bernoulli_rng normal_rng log_prob).
Local Abbreviation logp_new := (logp_new log_prob).
Local Abbreviation acceptance := (acceptance exp).
Local Abbreviation accept_reject :=
  (accept_reject RNG rand_uniform log_prob exp).
Local Abbreviation walker_step :=
  (walker_step RNG bernoulli_rng normal_rng rand_uniform log_prob exp).
Local Abbreviation walker_value :=
  (walker_value RNG bernoulli_rng normal_rng rand_uniform log_prob exp).

(** The loop updates slot [i] only, with what it computes from the
    value it finds there. *)
Lemma propose_loop_value cur mean i js : forall ns g x,
  ns !! i = Some x ->
  propose_loop js cur mean i ns g
  = do (x', g') <- propose_value js cur mean x g; Ok (<[i := x']> ns, g').
Proof.
  induction js as [|w js IH]; intros ns g x Hx; simpl.
  - now rewrite list_insert_id.
  - destruct (normal_rng d0 d1 g) as [z g'].
    destruct (at_int cur (w - 1)) as [s| |]; simpl; try reflexivity.
    destruct (vsub s mean) as [d| |]; simpl; try reflexivity.
    rewrite (at_lookup _ _ _ Hx). simpl.
    destruct (vadd x (vscale z d)) as [x'| |]; simpl; try reflexivity.
    pose proof (lookup_lt_Some _ _ _ Hx) as Hi.
    rewrite store_in_range by exact Hi. simpl.
    rewrite (IH _ g' x') by now apply list_lookup_insert_eq.
    destruct (propose_value js cur mean x' g') as [[x'' g'']| |]; simpl;
      try reflexivity.
    now rewrite list_insert_insert_eq.
Qed.

(** The accept/reject step, once the proposal is in slot [i]. *)
Lemma accept_reject_spec i cur logp0 (st : sweep RNG) proposed cur_i :
  cur !! i = Some cur_i ->
  new_states st !! i = Some proposed ->
  (i < length (logp st))%nat ->
  (i < length (accept_prob st))%nat ->
  accept_reject i cur logp0 st
  = let l := logp_new proposed in
    let a := acceptance l logp0 in
    let u := fst (rand_uniform (rng st)) in
    let g' := snd (rand_uniform (rng st)) in
    Ok (if dgt u a
        then Sweep g' (<[i := cur_i]> (new_states st))
               (<[i := logp0]> (logp st)) (<[i := a]> (accept_prob st))
        else Sweep g' (new_states st)
               (<[i := l]> (logp st)) (<[i := a]> (accept_prob st))).
Proof.
  intros Hcur Hprop Hlp Hap. unfold accept_reject.
  rewrite (at_lookup _ _ _ Hprop). simpl.
  rewrite store_in_range by exact Hlp. simpl.
  rewrite (at_lookup _ _ (logp_new proposed))
    by now apply list_lookup_insert_eq.
  simpl. rewrite store_in_range by exact Hap. simpl.
  rewrite (at_lookup _ _ (acceptance (logp_new proposed) logp0))
    by now apply list_lookup_insert_eq.
  simpl. destruct (rand_uniform (rng st)) as [u g']. simpl.
  destruct (dgt u _); [|reflexivity].
  rewrite (at_lookup _ _ _ Hcur). simpl.
  rewrite store_in_range by exact (lookup_lt_Some _ _ _ Hprop). simpl.
  rewrite store_in_range by now rewrite length_insert.
  simpl. now rewrite list_insert_insert_eq.
Qed.

Lemma accept_reject_in_range i cur logp0 (st st' : sweep RNG) :
  accept_reject i cur logp0 st = Ok st' ->
  (i < length (new_states st))%nat
  /\ (i < length (logp st))%nat
  /\ (i < length (accept_prob st))%nat.
Proof.
  unfold accept_reject. intros H.
  bind_inv H as proposed Hprop. apply at_ok, lookup_lt_Some in Hprop.
  bind_inv H as lp Hlp. apply store_ok in Hlp as [Hlp _].
  bind_inv H as l Hl. bind_inv H as ap Hap.
  apply store_ok in Hap as [Hap _]. auto.
Qed.

(** The body of the sweep for walker [i] writes the three values of
    [walker_value] to slot [i] of the three buffers. *)
Lemma walker_step_value fuel i cur (st : sweep RNG) :
  (i < length (new_states st))%nat ->
  (i < length (logp st))%nat ->
  (i < length (accept_prob st))%nat ->
  walker_step fuel i cur st
  = do (vlag) <- walker_value fuel i cur (rng st);
    let '(v, l, a, g) := vlag in
    Ok (Sweep g (<[i := v]> (new_states st)) (<[i := l]> (logp st))
          (<[i := a]> (accept_prob st))).
Proof.
  intros Hns Hlp Hap.
  unfold walker_step, propose, walker_value.
  destruct (at_ cur i) as [cur_i| |] eqn:Hcur; simpl; try reflexivity.
  apply at_ok in Hcur.
  destruct (choose_walkers fuel _ _ (rng st)) as [[rw g1]| |]; simpl;
    try reflexivity.
  destruct (mean_walkers rw cur) as [mean| |]; simpl; try reflexivity.
  rewrite store_in_range by exact Hns. simpl.
  rewrite (propose_loop_value cur mean i rw _ g1 cur_i)
    by now apply list_lookup_insert_eq.
  destruct (propose_value rw cur mean cur_i g1) as [[proposed g2]| |]; simpl;
    try reflexivity.
  rewrite list_insert_insert_eq.
  rewrite (accept_reject_spec i cur _ _ proposed cur_i); simpl;
    try assumption; [|now apply list_lookup_insert_eq].
  destruct (rand_uniform g2) as [u g3]. simpl.
  destruct (dgt u _); simpl; [|reflexivity].
  now rewrite list_insert_insert_eq.
Qed.

Lemma walker_step_in_range fuel i cur (st st' : sweep RNG) :
  walker_step fuel i cur st = Ok st' ->
  (i < length (new_states st))%nat
  /\ (i < length (logp st))%nat
  /\ (i < length (accept_prob st))%nat.
Proof.
  unfold walker_step, propose. intros H.
  bind_inv H as [logp0 st1] Hp.
  apply accept_reject_in_range in H as (_ & Hlp & Hap).
  bind_inv Hp as cur_i Hcur. bind_inv Hp as [rw g1] Hrw.
  bind_inv Hp as mean Hmean. bind_inv Hp as ns Hns.
  apply store_ok in Hns as [Hns _].
  bind_inv Hp as [ns' g2] Hloop. injection Hp as _ <-.
  simpl in Hlp, Hap. auto.
Qed.

(** ** The step returns on an ensemble *)

Lemma at_int_ensemble D cur w :
  ensemble D cur -> 1 <= w <= Z.of_nat (length cur) ->
  exists s, at_int cur (w - 1) = Ok s /\ length s = D.
Proof.
  intros Hens Hw. unfold at_int.
  destruct (Z.ltb_spec (w - 1) 0); [lia|].
  destruct (lookup_lt_is_Some_2 cur (Z.to_nat (w - 1))) as [s Hs]; [lia|].
  exists s. split; [now apply at_lookup|].
  unfold ensemble in Hens. rewrite Forall_lookup in Hens. eauto.
Qed.

Lemma mean_coeff_returns D cur size i js : forall acc,
  ensemble D cur ->
  Forall (fun w => 1 <= w <= Z.of_nat (length cur)) js ->
  (i < D)%nat ->
  exists m, mean_coeff js size cur i acc = Ok m.
Proof.
  induction js as [|w js IH]; intros acc Hens Hjs Hi; simpl; [eauto|].
  apply Forall_cons in Hjs as [Hw Hjs].
  destruct (at_int_ensemble D cur w Hens Hw) as (s & -> & Hs). simpl.
  destruct (lookup_lt_is_Some_2 s i) as [x Hx]; [lia|].
  rewrite (at_lookup _ _ _ Hx). simpl. now apply IH.
Qed.

Lemma mean_loop_returns D cur js coeffs :
  ensemble D cur ->
  Forall (fun w => 1 <= w <= Z.of_nat (length cur)) js ->
  Forall (fun i => (i < D)%nat) coeffs ->
  exists ms, mean_loop coeffs js cur = Ok ms /\ length ms = length coeffs.
Proof.
  intros Hens Hjs. induction coeffs as [|i coeffs IH]; intros Hc; simpl.
  - exists []. auto.
  - apply Forall_cons in Hc as [Hi Hc].
    destruct (mean_coeff_returns D cur (length js) i js d0 Hens Hjs Hi)
      as [m ->].
    destruct (IH Hc) as (ms & -> & Hlen). simpl.
    exists (m :: ms). simpl. auto.
Qed.

Lemma mean_walkers_returns D cur js :
  ensemble D cur -> cur <> [] ->
  Forall (fun w => 1 <= w <= Z.of_nat (length cur)) js ->
  exists mean, mean_walkers js cur = Ok mean /\ length mean = D.
Proof.
  intros Hens Hne Hjs. unfold mean_walkers.
  destruct cur as [|s0 cur']; [contradiction|]. simpl.
  assert (Hs0 : length s0 = D) by (now apply Forall_cons in Hens as [? _]).
  destruct (mean_loop_returns D (s0 :: cur') js (seq 0 (length s0)) Hens Hjs)
    as (ms & -> & Hlen).
  - apply Forall_forall. intros i Hi. apply elem_of_seq in Hi. lia.
  - exists ms. rewrite Hlen, length_seq. auto.
Qed.

Lemma propose_value_returns D cur mean js : forall x g,
  ensemble D cur ->
  Forall (fun w => 1 <= w <= Z.of_nat (length cur)) js ->
  length mean = D ->
  length x = D ->
  exists x' g', propose_value js cur mean x g = Ok (x', g').
Proof.
  induction js as [|w js IH]; intros x g Hens Hjs Hmean Hx; simpl; [eauto|].
  apply Forall_cons in Hjs as [Hw Hjs].
  destruct (normal_rng d0 d1 g) as [z g'].
  destruct (at_int_ensemble D cur w Hens Hw) as (s & -> & Hs). simpl.
  unfold vsub. rewrite Hs, Hmean, Nat.eqb_refl. simpl.
  unfold vadd, vscale.
  rewrite length_map, length_zip_with, Hs, Hmean, Hx, Nat.min_id, Nat.eqb_refl.
  simpl. apply IH; try assumption.
  rewrite length_zip_with, length_map, length_zip_with. lia.
Qed.

(** On an ensemble of at least three walkers of one dimension, with
    output buffers that have a slot [i], the body of the sweep for
    walker [i] returns as soon as [choose_walkers] does. *)
Lemma walker_step_returns D r i cur (st : sweep RNG) :
  ensemble D cur ->
  (i < length cur)%nat ->
  (i < length (new_states st))%nat ->
  (i < length (logp st))%nat ->
  (i < length (accept_prob st))%nat ->
  good_round (Z.of_nat (length cur)) (rng st) r ->
  exists st', walker_step (S r) i cur st = Ok st'.
Proof.
  intros Hens Hi Hns Hlp Hap Hgood.
  rewrite walker_step_value by assumption. unfold walker_value.
  destruct (lookup_lt_is_Some_2 cur i Hi) as [cur_i Hcur].
  rewrite (at_lookup _ _ _ Hcur). cbn [rbind].
  destruct (choose_walkers_returns r (Z.of_nat i) _ _ Hgood)
    as (rw & g1 & Hrw).
  rewrite Hrw. cbn [rbind].
  apply choose_walkers_post in Hrw as [_ Hall].
  assert (Hin : Forall (fun w => 1 <= w <= Z.of_nat (length cur)) rw).
  { eapply Forall_impl; [exact Hall|]. simpl. intros w Hw. lia. }
  destruct (mean_walkers_returns D cur rw Hens) as (mean & -> & Hmean);
    [destruct cur; [simpl in Hi; lia|discriminate]|exact Hin|].
  cbn [rbind].
  assert (Hci : length cur_i = D).
  { unfold ensemble in Hens. rewrite Forall_lookup in Hens. eauto. }
  destruct (propose_value_returns D cur mean rw cur_i g1 Hens Hin Hmean Hci)
    as (x' & g2 & ->).
  cbn [rbind]. destruct (rand_uniform g2) as [u g3].
  destruct (dgt u _); cbn [rbind]; eauto.
Qed.

End SamplerFacts.

(** C3.  For [N >= 3] walkers and the mover [i < N]: whatever
    [choose_walkers(i, N)] returns has at least two entries, all of them
    1-based indices between 1 and [N] other than [i + 1]; and it does
    return, within [r + 1] runs of its retry loop, as soon as round [r]
    of its coin flips has two successes. *)
Theorem choose_walkers_companions (RNG : Type)
    (bernoulli_rng : double -> RNG -> Z * RNG) (i N : Z) :
  3 <= N ->
  0 <= i < N ->
  (forall fuel g ws g',
     choose_walkers RNG bernoulli_rng fuel i N g = Ok (ws, g') ->
     (2 <= length ws)%nat
     /\ Forall (fun w => 1 <= w <= N /\ w <> i + 1) ws)
  /\ (forall g r,
        good_round RNG bernoulli_rng N g r ->
        exists ws g',
          choose_walkers RNG bernoulli_rng (S r) i N g = Ok (ws, g')).
Proof.
  intros HN Hi. split.
  - intros fuel g ws g' H.
    apply choose_walkers_post in H as [Hlen Hall]. split; [exact Hlen|].
    eapply Forall_impl; [exact Hall|]. simpl. intros w Hw. lia.
  - intros g r. apply choose_walkers_returns.
Qed.

Lemma choose_walkers_companions_witness :
  exists ws g',
    choose_walkers Fixed.RNG Fixed.bernoulli_rng 1 0 3 0%nat = Ok (ws, g')
    /\ (2 <= length ws)%nat
    /\ Forall (fun w => 1 <= w <= 3 /\ w <> 0 + 1) ws.
Proof.
  destruct (choose_walkers_companions Fixed.RNG Fixed.bernoulli_rng 0 3)
    as [Hpost Hret]; [lia|lia|].
  destruct (Hret 0%nat 0%nat) as (ws & g' & H).
  - unfold good_round. vm_compute. lia.
  - exists ws, g'. split; [exact H|]. exact (Hpost _ _ _ _ H).
Defined.

(* ===================================================================== *)
(** * Properties of the sweep *)
(* ===================================================================== *)

Lemma fixed_exp_at_infinity : exp_at_infinity Fixed.exp.
Proof. reflexivity. Qed.



Lemma fixed_uniform_01 : uniform_01 Fixed.RNG Fixed.rand_uniform.
Proof. intros g. split; reflexivity. Qed.

Section SweepClaims.

Variable RNG : Type.
Variable bernoulli_rng : double -> RNG -> Z * RNG.
Variable normal_rng : double -> double -> RNG -> double * RNG.
Variable rand_uniform : RNG -> double * RNG.
Variable log_prob : vector -> double.
Variable exp : double -> double.

Local Abbreviation logp_new := (logp_new log_prob).
Local Abbreviation acceptance := (acceptance exp).
Local Abbreviation accept_reject :=
  (accept_reject RNG rand_uniform log_prob exp).
Local Abbreviation walker_step :=
  (walker_step RNG bernoulli_rng normal_rng rand_uniform log_prob exp).
Local Abbreviation walker_value :=
  (walker_value RNG bernoulli_rng normal_rng rand_uniform log_prob exp).



(** The accept/reject step on a proposal whose log-density is NaN, for a
    finite [logp0]: it stores positive infinity in [logp(i)] and 1 in
    [accept_prob(i)], and [new_states[i]] keeps the proposal. *)
Lemma accept_reject_nan_proposal (i : nat) (cur : list vector)
    (logp0 : double) (st : sweep RNG) (proposed cur_i : vector) :
  exp_at_infinity exp ->
  uniform_01 RNG rand_uniform ->
  cur !! i = Some cur_i ->
  new_states st !! i = Some proposed ->
  (i < length (logp st))%nat ->
  (i < length (accept_prob st))%nat ->
  isnan (log_prob proposed) = true ->
  is_finite logp0 = true ->
  exists st',
    accept_reject i cur logp0 st = Ok st'
    /\ logp st' !! i = Some infinity
    /\ accept_prob st' !! i = Some d1
    /\ new_states st' !! i = Some proposed.
Proof.
  intros Hexp Hu Hcur Hprop Hlp Hap Hnan Hfin.
  rewrite (accept_reject_spec RNG rand_uniform log_prob exp
             i cur logp0 st proposed cur_i) by assumption.
  cbv zeta. unfold logp_new. rewrite Hnan.
  unfold acceptance. rewrite (dsub_inf_finite logp0 Hfin), Hexp.
  change (dgt infinity d1) with true. cbv iota.
  destruct (Hu (rng st)) as [_ Hlt]. rewrite (dlt_not_dgt _ _ Hlt).
  eexists. split; [reflexivity|]. cbn [new_states logp accept_prob].
  rewrite !list_lookup_insert_eq by assumption. auto.
Qed.


(** C8.  The accept/reject step of walker [i] leaves the generator as
    one uniform draw leaves it.  If the draw exceeds [accept_prob(i)],
    [new_states[i]] is [cur_states[i]] again and [logp(i)] is [logp0];
    otherwise [new_states[i]] is the proposal and [logp(i)] its
    log-density. *)
Theorem accept_reject_step (i : nat) (cur : list vector)
    (logp0 : double) (st : sweep RNG) (proposed cur_i : vector) :
  cur !! i = Some cur_i ->
  new_states st !! i = Some proposed ->
  (i < length (logp st))%nat ->
  (i < length (accept_prob st))%nat ->
  exists st',
    accept_reject i cur logp0 st = Ok st'
    /\ rng st' = snd (rand_uniform (rng st))
    /\ accept_prob st' !! i = Some (acceptance (logp_new proposed) logp0)
    /\ if dgt (fst (rand_uniform (rng st)))
             (acceptance (logp_new proposed) logp0)
       then new_states st' !! i = Some cur_i
            /\ logp st' !! i = Some logp0
       else new_states st' !! i = Some proposed
            /\ logp st' !! i = Some (logp_new proposed).
Proof.
  intros Hcur Hprop Hlp Hap.
  pose proof (lookup_lt_Some _ _ _ Hprop) as Hns.
  rewrite (accept_reject_spec RNG rand_uniform log_prob exp
             i cur logp0 st proposed cur_i) by assumption.
  cbv zeta. eexists. split; [reflexivity|].
  destruct (dgt _ _); cbn [rng new_states logp accept_prob];
    rewrite !list_lookup_insert_eq by assumption; auto.
Qed.

(** C9.  The body of the sweep for walker [i] keeps the sizes of
    [new_states], [logp] and [accept_prob] and every slot of them other
    than [i]; and what it leaves in slot [i], and the generator after
    it, are the same from any other contents of the three buffers: they
    are computed from [cur_states] and the generator alone.
    [cur_states] is an input of the step and not among its outputs. *)
Theorem walker_step_frame (fuel i : nat) (cur : list vector)
    (st st' : sweep RNG) :
  walker_step fuel i cur st = Ok st' ->
  (length (new_states st') = length (new_states st)
   /\ length (logp st') = length (logp st)
   /\ length (accept_prob st') = length (accept_prob st))
  /\ (forall j, j <> i ->
        new_states st' !! j = new_states st !! j
        /\ logp st' !! j = logp st !! j
        /\ accept_prob st' !! j = accept_prob st !! j)
  /\ (forall ns lp ap,
        (i < length ns)%nat -> (i < length lp)%nat -> (i < length ap)%nat ->
        exists st2,
          walker_step fuel i cur (Sweep (rng st) ns lp ap) = Ok st2
          /\ rng st2 = rng st'
          /\ new_states st2 !! i = new_states st' !! i
          /\ logp st2 !! i = logp st' !! i
          /\ accept_prob st2 !! i = accept_prob st' !! i).
Proof.
  intros H.
  destruct (walker_step_in_range _ _ _ _ _ _ _ _ _ _ _ H)
    as (Hns & Hlp & Hap).
  rewrite walker_step_value in H by assumption.
  bind_inv H as [[[v l] a] g] Hv. injection H as <-.
  cbn [rng new_states logp accept_prob].
  split; [now rewrite !length_insert|]. split.
  - intros j Hj. now rewrite !list_lookup_insert_ne by congruence.
  - intros ns lp ap Hns' Hlp' Hap'.
    rewrite walker_step_value by assumption.
    cbn [rng new_states logp accept_prob]. rewrite Hv.
    eexists. split; [reflexivity|]. cbn [rng new_states logp accept_prob].
    now rewrite !list_lookup_insert_eq by assumption.
Qed.

End SweepClaims.



Lemma accept_reject_step_witness :
  exists st',
    accept_reject Fixed.RNG Fixed.rand_uniform_half Fixed.log_prob_flat
      Fixed.exp 0 Fixed.walkers d1 Fixed.buffers = Ok st'
    /\ rng st' = 1%nat
    /\ accept_prob st' !! 0%nat = Some dhalf
    /\ new_states st' !! 0%nat = Some [d0]
    /\ logp st' !! 0%nat = Some d0.
Proof.
  destruct (accept_reject_step Fixed.RNG Fixed.rand_uniform_half
              Fixed.log_prob_flat Fixed.exp 0 Fixed.walkers d1 Fixed.buffers
              [d0] [d0]) as (st' & H & Hg & Ha & Hns & Hlp);
    try reflexivity; try (simpl; lia).
  exists st'. auto.
Defined.

Lemma walker_step_frame_witness :
  let st' := Sweep 5%nat [[d0]; [d0]; [d0]] [d0; d0; d0] [d1; d0; d0] in
  (length (new_states st') = 3%nat
   /\ length (logp st') = 3%nat
   /\ length (accept_prob st') = 3%nat)
  /\ (forall j, j <> 0%nat ->
        new_states st' !! j = new_states Fixed.buffers !! j
        /\ logp st' !! j = logp Fixed.buffers !! j
        /\ accept_prob st' !! j = accept_prob Fixed.buffers !! j)
  /\ (forall ns lp ap,
        (0 < length ns)%nat -> (0 < length lp)%nat -> (0 < length ap)%nat ->
        exists st2,
          walker_step Fixed.RNG Fixed.bernoulli_rng Fixed.normal_rng
            Fixed.rand_uniform Fixed.log_prob_flat Fixed.exp 1 0
            Fixed.walkers (Sweep 0%nat ns lp ap) = Ok st2
          /\ rng st2 = rng st'
          /\ new_states st2 !! 0%nat = new_states st' !! 0%nat
          /\ logp st2 !! 0%nat = logp st' !! 0%nat
          /\ accept_prob st2 !! 0%nat = accept_prob st' !! 0%nat).
Proof.
  apply (walker_step_frame Fixed.RNG Fixed.bernoulli_rng Fixed.normal_rng
           Fixed.rand_uniform Fixed.log_prob_flat Fixed.exp 1 0 Fixed.walkers
           Fixed.buffers).
  reflexivity.
Defined.

(* ===================================================================== *)
(** * Further properties of the writer *)
(* ===================================================================== *)

(** ** The order of the comparison operators *)

Lemma lex_le_intro (x y : double) (a b : Z * Z * Z) :
  dkey x = Some a -> dkey y = Some b -> lex_le a b ->
  exists a b, dkey x = Some a /\ dkey y = Some b /\ lex_le a b.
Proof. eauto. Qed.

Lemma lex_le_elim (x y : double) (a b : Z * Z * Z) :
  dkey x = Some a -> dkey y = Some b ->
  (exists a b, dkey x = Some a /\ dkey y = Some b /\ lex_le a b) ->
  lex_le a b.
Proof.
  intros Ha Hb (a' & b' & Ha' & Hb' & H). congruence.
Qed.

(** Decides [dle] between two doubles whose keys are known. *)
Ltac dle_by_key :=
  split;
  [ let Hk := fresh "Hk" in
    intros Hk;
    first [ discriminate Hk
          | eapply lex_le_intro; [reflexivity|reflexivity|cbn; lia] ]
  | let Hk := fresh "Hk" in
    intros Hk;
    first [ reflexivity
          | eapply lex_le_elim in Hk; [|reflexivity|reflexivity];
            cbn in Hk; lia ] ].

Lemma dle_lex (x y : double) :
  dle x y = true <->
  exists a b, dkey x = Some a /\ dkey y = Some b /\ lex_le a b.
Proof.
  unfold dle, SFleb.
  destruct x as [sx|[]| |[] mx ex], y as [sy|[]| |[] my ey];
    cbn [SFcompare];
    try (split; [discriminate|intros (a & b & Ha & Hb & H); discriminate]);
    try dle_by_key.
  - destruct (Z.compare_spec ex ey) as [->| |].
    + change (Pos.compare_cont Eq mx my) with (Pos.compare mx my).
      destruct (Pos.compare_spec mx my) as [->| |]; cbn [CompOpp];
        dle_by_key.
    + dle_by_key.
    + dle_by_key.
  - destruct (Z.compare_spec ex ey) as [->| |].
    + change (Pos.compare_cont Eq mx my) with (Pos.compare mx my).
      destruct (Pos.compare_spec mx my) as [->| |]; dle_by_key.
    + dle_by_key.
    + dle_by_key.
Qed.

Lemma dle_trans (a b c : double) :
  dle a b = true -> dle b c = true -> dle a c = true.
Proof.
  rewrite !dle_lex.
  intros (ka & kb & Ha & Hb & Hab) (kb' & kc & Hb' & Hc & Hbc).
  rewrite Hb in Hb'. injection Hb' as <-.
  exists ka, kc. repeat split; try assumption.
  destruct ka as [[a1 a2] a3], kb as [[b1 b2] b3], kc as [[c1 c2] c3].
  unfold lex_le in *. lia.
Qed.

Lemma dle_refl (a : double) : isnan a = false -> dle a a = true.
Proof.
  intros Ha. apply dle_lex. destruct (dkey a) as [[[a1 a2] a3]|] eqn:K.
  - exists (a1, a2, a3), (a1, a2, a3). repeat split. unfold lex_le. lia.
  - destruct a as [|[]| |[]]; discriminate.
Qed.

Lemma dle_not_nan (a b : double) :
  dle a b = true -> isnan a = false /\ isnan b = false.
Proof. destruct a, b; simpl; intros H; try discriminate H; auto. Qed.

(** ** What a call appends *)

Lemma guarded_loop_shape check out n : forall i,
  exists ok m,
    (m <= n)%nat /\ (ok = true -> m = n)
    /\ forall w, guarded_loop check out n i w
                 = finish ok (append w (map out (seq i m))).
Proof.
  induction n as [|n IH]; intros i.
  - exists true, 0%nat. repeat split; [lia|]. intros w. simpl.
    now rewrite append_nil.
  - simpl. destruct (check i) eqn:C.
    + destruct (IH (S i)) as (ok & m & Hm & Hok & H).
      exists ok, (S m). repeat split; [lia|intros E; rewrite Hok; auto|].
      intros w. unfold assert. rewrite H. simpl.
      now rewrite push_back_append, append_append.
    + exists false, 0%nat. repeat split; [lia|discriminate|].
      intros w. simpl. now rewrite append_nil.
Qed.

Lemma guarded_loop_raises check out n : forall i w j,
  (i <= j < i + n)%nat -> check j = false ->
  raises (guarded_loop check out n i w) = true.
Proof.
  induction n as [|n IH]; intros i w j Hj Hc; [lia|]. simpl.
  destruct (check i) eqn:C; [|reflexivity]. simpl.
  apply (IH (S i) _ j); [|exact Hc].
  destruct (Nat.eq_dec j i) as [->|]; [congruence|lia].
Qed.

Lemma guarded_loop_checks check out n i w w' j :
  guarded_loop check out n i w = Done w' ->
  (i <= j < i + n)%nat -> check j = true.
Proof.
  intros H Hj. destruct (check j) eqn:C; [reflexivity|].
  pose proof (guarded_loop_raises check out n i w j Hj C) as R.
  rewrite H in R. discriminate.
Qed.

Section WriterMore.

Variables log logit atanh : double -> double.
Variable factor_cov_matrix : matrix -> bool * (list double * list double).

Local Abbreviation run := (run log logit atanh factor_cov_matrix).
Local Abbreviation outputs := (outputs log logit atanh factor_cov_matrix).
Local Abbreviation invoke_all :=
  (invoke_all log logit atanh factor_cov_matrix).

Lemma push_all_append a n : forall i w,
  push_all n i a w = append w (map (coeff a) (seq i n)).
Proof.
  induction n as [|n IH]; intros i w; simpl.
  - now rewrite append_nil.
  - now rewrite IH, push_back_append, append_append.
Qed.

(** Every call is a success flag and a list of values appended to
    whatever writer it runs on. *)
Lemma run_shape (c : call) :
  exists ok out, forall w, run c w = finish ok (append w out).
Proof.
  destruct c; simpl;
    unfold scalar_unconstrain, scalar_pos_unconstrain, scalar_lb_unconstrain,
      scalar_ub_unconstrain, scalar_lub_unconstrain, corr_unconstrain,
      prob_unconstrain, assert.
  1-7: repeat match goal with
         | |- context [if ?b then _ else _] => destruct b
         end;
       first [ eexists true, [_]; intros w; reflexivity
             | exists false, []; intros w; simpl; now rewrite append_nil ].
  - destruct (guarded_loop_shape (pos_ordered_ok y) (pos_ordered_out log y)
                (length y) 0) as (ok & m & _ & _ & H).
    exists ok, (map (pos_ordered_out log y) (seq 0 m)). intros w.
    now rewrite pos_ordered_unconstrain_guarded.
  - destruct (guarded_loop_shape (simplex_ok y) (simplex_out log y)
                (length y - 1) 0) as (ok & m & _ & _ & H).
    destruct (simplex_admitted y) eqn:A.
    + exists ok, (map (simplex_out log y) (seq 0 m)). intros w.
      now rewrite simplex_unconstrain_guarded, A.
    + exists false, []. intros w.
      rewrite simplex_unconstrain_guarded, A. simpl. now rewrite append_nil.
  - unfold corr_matrix_unconstrain, assert.
    destruct (factor_cov_matrix y) as [ok [cpcs sds]].
    repeat match goal with
           | |- context [if ?b then _ else _] => destruct b
           end;
      first [ eexists true, _; intros w; simpl; apply f_equal, push_all_append
            | exists false, []; intros w; simpl; now rewrite append_nil ].
  - unfold cov_matrix_unconstrain, assert.
    destruct (factor_cov_matrix y) as [ok [cpcs sds]].
    repeat match goal with
           | |- context [if ?b then _ else _] => destruct b
           end;
      first [ eexists true, _; intros w; simpl;
              rewrite !push_all_append, append_append; reflexivity
            | exists false, []; intros w; simpl; now rewrite append_nil ].
Qed.

Lemma run_outputs (c : call) (w : writer) :
  run c w
  = finish (negb (raises (run c (Writer [] [])))) (append w (outputs c)).
Proof.
destruct (run_shape c) as (ok & out & H).
  unfold outputs. rewrite !H. destruct ok; reflexivity.
Qed.

End WriterMore.

Lemma dadd_non_finite (a b : double) :
  is_finite a = false \/ is_finite b = false -> is_finite (dadd a b) = false.
Proof.
  destruct a as [|[]| |], b as [|[]| |]; simpl; intros [H|H];
    try discriminate H; reflexivity.
Qed.

Lemma fold_dadd_non_finite (rest : list double) : forall acc,
  is_finite acc = false \/ existsb (fun x => negb (is_finite x)) rest = true ->
  is_finite (fold_left dadd rest acc) = false.
Proof.
  induction rest as [|x rest IH]; intros acc [H|H]; simpl in *;
    try assumption; try discriminate.
  - apply IH. left. apply dadd_non_finite. auto.
  - apply orb_true_iff in H as [H|H].
    + apply IH. left. apply dadd_non_finite. right.
      now apply negb_true_iff.
    + apply IH. now right.
Qed.

Lemma sum_non_finite (y : vector) :
  existsb (fun x => negb (is_finite x)) y = true -> is_finite (sum y) = false.
Proof.
  destruct y as [|y0 rest]; [discriminate|]. simpl. intros H.
  apply fold_dadd_non_finite. apply orb_true_iff in H as [H|H]; [left|now right].
  now apply negb_true_iff.
Qed.

Lemma non_finite_sum_rejected (s : double) :
  is_finite s = false ->
  dlt (dabs (dsub d1 s)) CONSTRAINT_TOLERANCE = false.
Proof. destruct s as [|[]| |]; simpl; intros H; try discriminate H; reflexivity. Qed.

Lemma isnan_non_finite (y : vector) :
  existsb isnan y = true -> existsb (fun x => negb (is_finite x)) y = true.
Proof.
  induction y as [|x y IH]; simpl; [auto|]. intros H.
  apply orb_true_iff in H as [H|H]; apply orb_true_iff; [left|right; auto].
  destruct x; try discriminate H; reflexivity.
Qed.

Lemma existsb_coeff (p : double -> bool) (y : vector) :
  existsb p y = true -> exists m, (m < length y)%nat /\ p (coeff y m) = true.
Proof.
  induction y as [|x y IH]; simpl; [discriminate|]. intros H.
  apply orb_true_iff in H as [H|H].
  - exists 0%nat. split; [lia|exact H].
  - destruct (IH H) as (m & Hm & Hp). exists (S m). split; [lia|exact Hp].
Qed.

Lemma dle_nan_r (x : double) : dle x nan = false.
Proof. now destruct x as [|[]| |[]]. Qed.

Lemma nan_entry_fails (y : vector) (m : nat) :
  isnan (coeff y m) = true -> pos_ordered_ok y m = false.
Proof.
  intros H.
  assert (E : coeff y m = nan)
    by (destruct (coeff y m); try discriminate H; reflexivity).
  unfold pos_ordered_ok, dge. fold (dle d0 (coeff y 0)).
  destruct m; simpl Nat.eqb; cbv iota.
  - rewrite E. reflexivity.
  - fold (dle (coeff y (S m - 1)) (coeff y (S m))). rewrite E.
    apply dle_nan_r.
Qed.

Section WriterExtras.

Variables log logit atanh : double -> double.
Variable factor_cov_matrix : matrix -> bool * (list double * list double).

Local Abbreviation run := (run log logit atanh factor_cov_matrix).
Local Abbreviation outputs := (outputs log logit atanh factor_cov_matrix).
Local Abbreviation raising := (raising log logit atanh factor_cov_matrix).
Local Abbreviation invoke_all :=
  (invoke_all log logit atanh factor_cov_matrix).

(** X1.  Whether a call succeeds, and which values it appends, depend on
    its arguments only: on any two writers it raises or not alike and
    appends the same values after what each writer holds; it never
    removes or rewrites a value already written and never touches the
    integer buffer. *)
Theorem call_appends_only (c : call) (w1 w2 : writer) :
  raises (run c w1) = raises (run c w2)
  /\ exists out,
       written (run c w1) = Writer (data_r_ w1 ++ out) (data_i_ w1)
       /\ written (run c w2) = Writer (data_r_ w2 ++ out) (data_i_ w2).
Proof.
  destruct (run_shape log logit atanh factor_cov_matrix c) as (ok & out & H).
  rewrite !H. split; [destruct ok; reflexivity|].
  exists out. destruct ok; split; reflexivity.
Qed.

Lemma invoke_all_outputs (cs : list call) : forall env env' failed,
  invoke_all cs env = (env', failed) ->
  exists k, (k <= length cs)%nat
    /\ the_writer env'
       = append (the_writer env) (concat (map outputs (firstn k cs)))
    /\ (failed = false ->
        k = length cs /\ Forall (fun c => raising c = false) cs)
    /\ (failed = true ->
        exists c, (0 < k)%nat /\ cs !! (k - 1)%nat = Some c
          /\ raising c = true
          /\ Forall (fun c => raising c = false) (firstn (k - 1) cs)).
Proof.
  induction cs as [|c cs IH]; intros env env' failed H; simpl in H.
  - injection H as <- <-. exists 0%nat. simpl.
    rewrite append_nil. split; [lia|]. split; [reflexivity|].
    split; [intros _; split; [reflexivity|constructor]|discriminate].
  - unfold invoke in H.
    rewrite (run_outputs log logit atanh factor_cov_matrix) in H.
    destruct (raises (run c (Writer [] []))) eqn:R; simpl in H.
    + injection H as <- <-. exists 1%nat. simpl.
      rewrite app_nil_r. split; [lia|]. split; [reflexivity|].
      split; [discriminate|]. intros _. exists c.
      repeat split; try lia; try constructor. exact R.
    + apply IH in H as (k & Hk & -> & Hok & Hfail). exists (S k). simpl.
      rewrite append_append. split; [lia|]. split; [reflexivity|]. split.
      * intros E. destruct (Hok E) as [-> Hall]. split; [reflexivity|].
        constructor; [exact R|exact Hall].
      * intros E. destruct (Hfail E) as (c' & Hpos & Hc' & Hr & Hall).
        exists c'. split; [lia|]. rewrite Nat.sub_0_r.
        destruct k as [|k]; [lia|]. simpl in Hc', Hall |- *.
        rewrite Nat.sub_0_r in Hc', Hall.
        repeat split; try assumption. constructor; [exact R|exact Hall].
Qed.

(** X2.  After a sequence of calls on a writer built from [data_r] and
    [data_i], the real buffer of the writer is [data_r] followed by the
    outputs of the first [k] calls, call after call in the order of the
    calls, and the integer buffer is [data_i].  If no call raised, [k]
    is the number of calls and none of them is a raising call.  If a
    call raised, it is call number [k], the first raising call of the
    sequence: the calls before it do not raise, its own outputs up to
    the failed check are the last ones in the buffer, and no later call
    has run. *)
Theorem calls_append_in_order (cs : list call)
    (data_r : list double) (data_i : list Z) :
  exists k, (k <= length cs)%nat
    /\ the_writer (fst (invoke_all cs (construct data_r data_i)))
       = Writer (data_r ++ concat (map outputs (firstn k cs))) data_i
    /\ (snd (invoke_all cs (construct data_r data_i)) = false ->
        k = length cs /\ Forall (fun c => raising c = false) cs)
    /\ (snd (invoke_all cs (construct data_r data_i)) = true ->
        exists c, (0 < k)%nat /\ cs !! (k - 1)%nat = Some c
          /\ raising c = true
          /\ Forall (fun c => raising c = false) (firstn (k - 1) cs)).
Proof.
  destruct (invoke_all cs (construct data_r data_i)) as [env' failed] eqn:E.
  apply invoke_all_outputs in E as (k & Hk & Hw & Hok & Hfail).
  exists k. simpl. auto.
Qed.

Lemma k_choose_2_no_wrap (k : Z) :
  0 < k <= 65536 -> uint (k * uint (k - 1)) / 2 = k * (k - 1) / 2.
Proof.
  intros Hk. unfold uint.
  rewrite (Z.mod_small (k - 1)) by lia.
  rewrite Z.mod_small; [reflexivity|]. nia.
Qed.

(** X3.  A call that returns has appended the documented number of
    values: one for each scalar transform, [K] for a positive ordered
    vector of size [K], [K - 1] for a simplex, [K (K - 1) / 2] for a
    correlation matrix and [K (K - 1) / 2 + K] for a covariance matrix of
    [K] rows, for matrices of up to [2^16] rows, where the [unsigned int]
    product [k * (k - 1)] does not wrap. *)
Theorem output_count (c : call) (w w' : writer) :
  moderate c ->
  run c w = Done w' ->
  Z.of_nat (length (data_r_ w'))
  = Z.of_nat (length (data_r_ w)) + expected_count c.
Proof.
  intros Hm H. destruct c; simpl in H, Hm |- *.
  1-7: unfold scalar_unconstrain, scalar_pos_unconstrain,
         scalar_lb_unconstrain, scalar_ub_unconstrain,
         scalar_lub_unconstrain, corr_unconstrain, prob_unconstrain,
         assert in H;
       repeat match type of H with
              | context [if ?b then _ else _] => destruct b
              end;
       try discriminate H; injection H as <-; simpl;
       rewrite length_app; simpl; lia.
  - rewrite pos_ordered_unconstrain_guarded in H.
    rewrite guarded_loop_done in H
      by (intros j Hj; eapply guarded_loop_checks; eauto).
    injection H as <-. simpl.
    rewrite length_app, length_map, length_seq. lia.
  - rewrite simplex_unconstrain_guarded in H.
    destruct (simplex_admitted y) eqn:A; [|discriminate].
    rewrite guarded_loop_done in H
      by (intros j Hj; eapply guarded_loop_checks; eauto).
    injection H as <-. simpl.
    rewrite length_app, length_map, length_seq.
    unfold simplex_admitted in A. apply andb_true_iff in A as [A _].
    apply Nat.ltb_lt in A. lia.
  - unfold corr_matrix_unconstrain, assert in H.
    assert (Hu : uint (rows y) = rows y) by (apply Z.mod_small; lia).
    rewrite Hu in H.
    destruct (Z.ltb_spec 0 (rows y)); [|discriminate].
    destruct (cols y =? rows y); [|discriminate].
    destruct (factor_cov_matrix y) as [ok [cpcs sds]].
    destruct (unit_sds _ _ _); [|discriminate].
    destruct ok; [|discriminate]. injection H as <-.
    rewrite push_all_append. simpl.
    rewrite length_app, length_map, length_seq, k_choose_2_no_wrap by lia.
    rewrite Nat2Z.inj_add, Z2Nat.id; [lia|].
    apply Z.div_pos; nia.
  - unfold cov_matrix_unconstrain, assert in H.
    assert (Hu : uint (rows y) = rows y) by (apply Z.mod_small; lia).
    rewrite Hu in H.
    destruct (Z.ltb_spec 0 (rows y)); [|discriminate].
    destruct (cols y =? rows y); [|discriminate].
    destruct (factor_cov_matrix y) as [ok [cpcs sds]].
    destruct ok; [|discriminate]. injection H as <-.
    rewrite !push_all_append. simpl.
    rewrite !length_app, !length_map, !length_seq, k_choose_2_no_wrap by lia.
    rewrite !Nat2Z.inj_add, !Z2Nat.id; [lia|lia|].
    apply Z.div_pos; nia.
Qed.

(** X4.  No checked scalar or vector transform lets a NaN through: a
    call of [scalar_pos], [scalar_lb], [scalar_ub], [scalar_lub], [corr],
    [prob], [pos_ordered] or [simplex] raises the constraint violation
    whenever its value, one of its bounds or one of its entries is NaN. *)
Theorem nan_argument_rejected (c : call) (w : writer) :
  mentions_nan c = true -> raises (run c w) = true.
Proof.
  destruct c; simpl; try discriminate;
    unfold scalar_pos_unconstrain, scalar_lb_unconstrain,
      scalar_ub_unconstrain, scalar_lub_unconstrain, corr_unconstrain,
      prob_unconstrain, assert, dge, dle.
  - destruct y; try discriminate; reflexivity.
  - intros H. apply orb_true_iff in H as [H|H].
    + destruct lb; try discriminate H. now destruct y.
    + destruct y; try discriminate H. now destruct lb as [|[]| |[]].
  - intros H. apply orb_true_iff in H as [H|H].
    + destruct ub; try discriminate H. now destruct y as [|[]| |[]].
    + destruct y; try discriminate H. reflexivity.
  - intros H. apply orb_true_iff in H as [H|H];
      [apply orb_true_iff in H as [H|H]|].
    + destruct lb; try discriminate H. reflexivity.
    + destruct ub; try discriminate H.
      destruct (SFleb lb y); [now destruct y as [|[]| |[]]|reflexivity].
    + destruct y; try discriminate H. now destruct lb as [|[]| |[]].
  - destruct y; try discriminate; reflexivity.
  - destruct y; try discriminate; reflexivity.
  - intros H. apply existsb_coeff in H as (m & Hm & Hn).
    rewrite pos_ordered_unconstrain_guarded.
    apply (guarded_loop_raises _ _ _ _ _ m); [lia|].
    now apply nan_entry_fails.
  - intros H. rewrite simplex_unconstrain_guarded.
    unfold simplex_admitted.
    rewrite non_finite_sum_rejected
      by now apply sum_non_finite, isnan_non_finite.
    now rewrite andb_false_r.
Qed.

(** X5.  [simplex_unconstrain] raises the constraint violation on every
    vector with an entry that is infinite or NaN, the last entry
    included, and appends nothing: the sum of such a vector is not
    within the tolerance of 1. *)
Theorem simplex_rejects_non_finite (y : vector) (w : writer) :
  existsb (fun x => negb (is_finite x)) y = true ->
  simplex_unconstrain log y w = ConstraintViolation w.
Proof.
  intros H. rewrite simplex_unconstrain_guarded. unfold simplex_admitted.
  rewrite non_finite_sum_rejected by now apply sum_non_finite.
  now rewrite andb_false_r.
Qed.

(** X6.  With crossed bounds no value passes: when [lb <= ub] is false,
    [scalar_lub_unconstrain] raises the constraint violation for every
    [y] and appends nothing. *)
Theorem crossed_bounds_rejected (lb ub y : double) (w : writer) :
  dle lb ub = false ->
  scalar_lub_unconstrain logit lb ub y w = ConstraintViolation w.
Proof.
  intros H. unfold scalar_lub_unconstrain, assert.
  destruct (dle lb y) eqn:L; [|reflexivity].
  destruct (dle y ub) eqn:U; [|reflexivity].
  rewrite (dle_trans _ _ _ L U) in H. discriminate.
Qed.

(** X7.  A positive ordered vector that [pos_ordered_unconstrain] accepts
    is sorted and non-negative throughout: every entry is [>= 0] and
    [<=] every later entry; and the call has appended one output per
    entry, [log(y[0])] and the logarithms of the successive
    differences. *)
Theorem pos_ordered_accepts_sorted (y : vector) (w w' : writer) :
  pos_ordered_unconstrain log y w = Done w' ->
  w' = append w (pos_ordered_outputs log y)
  /\ forall i j, (i <= j < length y)%nat ->
       dle d0 (coeff y i) = true /\ dle (coeff y i) (coeff y j) = true.
Proof.
  intros H. rewrite pos_ordered_unconstrain_guarded in H.
  assert (Hok : forall j, (j < length y)%nat -> pos_ordered_ok y j = true).
  { intros j Hj. eapply guarded_loop_checks; [exact H|lia]. }
  split.
  - rewrite guarded_loop_done in H by (intros j Hj; apply Hok; lia).
    now injection H as <-.
  - assert (Hstep : forall j, (S j < length y)%nat ->
                      dle (coeff y j) (coeff y (S j)) = true).
    { intros j Hj. specialize (Hok (S j) Hj). unfold pos_ordered_ok in Hok.
      simpl in Hok. now rewrite Nat.sub_0_r in Hok. }
    assert (Hup : forall d i, (i + d < length y)%nat ->
                    isnan (coeff y i) = false ->
                    dle (coeff y i) (coeff y (i + d)) = true).
    { induction d as [|d IH]; intros i Hi Hn.
      - rewrite Nat.add_0_r. now apply dle_refl.
      - eapply dle_trans; [apply IH; [lia|exact Hn]|].
        replace (i + S d)%nat with (S (i + d)) by lia. apply Hstep. lia. }
    assert (H0 : (0 < length y)%nat -> dle d0 (coeff y 0) = true).
    { intros Hl. exact (Hok 0%nat Hl). }
    intros i j Hij.
    assert (Hi0 : dle d0 (coeff y i) = true).
    { eapply dle_trans; [apply H0; lia|].
      apply (Hup i 0%nat); [simpl; lia|].
      apply (dle_not_nan d0 (coeff y 0)), H0. lia. }
    split; [exact Hi0|].
    replace j with (i + (j - i))%nat by lia.
    apply Hup; [lia|]. apply (dle_not_nan d0 _ Hi0).
Qed.

Lemma unit_sds_all sds n : forall i,
  unit_sds n i sds = true ->
  Forall (fun s => dlt (dabs (dsub s d1)) CONSTRAINT_TOLERANCE = true)
    (map (coeff sds) (seq i n)).
Proof.
  induction n as [|n IH]; intros i H; simpl in *; [constructor|].
  apply andb_true_iff in H as [H1 H2]. constructor; auto.
Qed.

(** X8.  A matrix that [corr_matrix_unconstrain] accepts is accepted by
    [cov_matrix_unconstrain] too, which appends the same partial
    correlations followed by the scales, one per row, each within the
    tolerance [1e-8] of 1. *)
Theorem corr_matrix_is_cov_matrix (y : matrix) (w w1 : writer) :
  corr_matrix_unconstrain factor_cov_matrix y w = Done w1 ->
  exists sds,
    cov_matrix_unconstrain factor_cov_matrix y w = Done (append w1 sds)
    /\ length sds = Z.to_nat (uint (rows y))
    /\ Forall (fun s => dlt (dabs (dsub s d1)) CONSTRAINT_TOLERANCE = true)
         sds.
Proof.
  unfold corr_matrix_unconstrain, cov_matrix_unconstrain, assert.
  destruct (0 <? uint (rows y)); [|discriminate].
  destruct (cols y =? uint (rows y)); [|discriminate].
  destruct (factor_cov_matrix y) as [ok [cpcs sds]].
  destruct (unit_sds _ _ _) eqn:U; [|discriminate].
  destruct ok; [|discriminate]. intros H. injection H as <-.
  exists (map (coeff sds) (seq 0 (Z.to_nat (uint (rows y))))).
  split; [now rewrite (push_all_append sds)|].
  split; [now rewrite length_map, length_seq|].
  now apply unit_sds_all.
Qed.

End WriterExtras.

(* ===================================================================== *)
(** * Further properties of the sampler *)
(* ===================================================================== *)

Lemma increasing_NoDup (l : list Z) : StronglySorted Z.lt l -> NoDup l.
Proof.
  induction 1 as [|x l Hs IH Hall]; constructor; [|exact IH].
  intros Hin. rewrite Forall_forall in Hall. specialize (Hall x Hin). lia.
Qed.

Lemma count_true_le (bs : list bool) : (count_true bs <= length bs)%nat.
Proof. induction bs as [|[] bs IH]; simpl; lia. Qed.

Lemma dsub_nan_r (x : double) : dsub x nan = nan.
Proof. now destruct x. Qed.

Section SamplerMore.

Variable RNG : Type.
Variable bernoulli_rng : double -> RNG -> Z * RNG.
Variable normal_rng : double -> double -> RNG -> double * RNG.
Variable rand_uniform : RNG -> double * RNG.
Variable log_prob : vector -> double.
Variable exp : double -> double.

Local Abbreviation choose_loop := (choose_loop RNG bernoulli_rng).
Local Abbreviation choose_walkers := (choose_walkers RNG bernoulli_rng).
Local Abbreviation coins := (coins RNG bernoulli_rng).
Local Abbreviation successes := (successes RNG bernoulli_rng).
Local Abbreviation after_rounds := (after_rounds RNG bernoulli_rng).
Local Abbreviation good_round := (good_round RNG bernoulli_rng).
Local Abbreviation propose_value := (propose_value RNG normal_rng).
Local Abbreviation logp_new := (logp_new log_prob).
Local Abbreviation acceptance := (acceptance exp).
Local Abbreviation walker_step :=
  (walker_step RNG bernoulli_rng normal_rng rand_uniform log_prob exp).
Local Abbreviation walker_value :=
  (walker_value RNG bernoulli_rng normal_rng rand_uniform log_prob exp).
Local Abbreviation sweep_from :=
  (sweep_from RNG bernoulli_rng normal_rng rand_uniform log_prob exp).
Local Abbreviation ensemble_transition :=
  (ensemble_transition RNG bernoulli_rng normal_rng rand_uniform log_prob exp).

(** ** The companion set *)

(** The least index the loop can add from counter [i] on. *)
Lemma choose_loop_increasing n : forall i index walkers g,
  exists added,
    fst (choose_loop n i index walkers g) = walkers ++ added
    /\ Forall (fun w => (if i >=? index then i + 2 else i + 1) <= w) added
    /\ StronglySorted Z.lt added.
Proof.
  induction n as [|n IH]; intros i index walkers g; simpl.
  - exists []. split; [now rewrite app_nil_r|]. split; constructor.
  - destruct (bernoulli_rng dhalf g) as [temp g'].
    match goal with
    | |- context [choose_loop n (i + 1) index ?ws g'] =>
        destruct (IH (i + 1) index ws g') as (added & -> & Hlow & Hs)
    end.
    assert (Hlt : Forall (fun w => (if i >=? index then i + 2 else i + 1) < w)
                    added).
    { eapply Forall_impl; [exact Hlow|]. simpl. intros w.
      destruct (Z.geb_spec i index), (Z.geb_spec (i + 1) index); lia. }
    assert (Hle : Forall (fun w => (if i >=? index then i + 2 else i + 1) <= w)
                    added).
    { eapply Forall_impl; [exact Hlt|]. simpl. intros w. lia. }
    destruct (negb (temp =? 0)).
    + exists ((if i >=? index then i + 2 else i + 1) :: added).
      split; [destruct (i >=? index); now rewrite <- app_assoc|].
      split; constructor; try assumption. lia.
    + exists added. auto.
Qed.

Lemma successes_le n g : (successes n g <= n)%nat.
Proof.
  unfold successes. etransitivity; [apply count_true_le|].
  revert g. induction n as [|n IH]; intros g; simpl; [lia|].
  destruct (bernoulli_rng dhalf g) as [temp g'].
  specialize (IH g'). destruct (coins n g'). simpl in *. lia.
Qed.

(** The rounds a returning call went through. *)
Lemma choose_walkers_rounds fuel : forall index num_walkers g ws g',
  choose_walkers fuel index num_walkers g = Ok (ws, g') ->
  exists r, (r < fuel)%nat
    /\ (forall r', (r' < r)%nat -> ~ good_round num_walkers g r')
    /\ good_round num_walkers g r
    /\ g' = after_rounds (S r) (Z.to_nat (num_walkers - 1)) g
    /\ length ws
       = successes (Z.to_nat (num_walkers - 1))
           (after_rounds r (Z.to_nat (num_walkers - 1)) g).
Proof.
  unfold good_round.
  induction fuel as [|fuel IH]; intros index num_walkers g ws g' H;
    simpl in H; [discriminate|].
  set (n := Z.to_nat (num_walkers - 1)) in *.
  destruct (choose_loop_coins RNG bernoulli_rng n 0 index [] g)
    as [Hsnd Hlen].
  destruct (choose_loop n 0 index [] g) as [walkers g1] eqn:L.
  simpl in Hsnd, Hlen. subst g1.
  destruct (Nat.leb_spec (length walkers) 1) as [Hle|Hgt].
  - apply IH in H as (r & Hr & Hfirst & Hgood & Hg & Hw).
    exists (S r). split; [lia|]. split; [|auto].
    intros [|r'] Hr'; [simpl; lia|]. apply Hfirst. lia.
  - injection H as <- <-. exists 0%nat. split; [lia|].
    split; [intros; lia|]. simpl. split; [lia|]. auto.
Qed.

Lemma choose_walkers_small fuel : forall index num_walkers g,
  num_walkers <= 2 -> choose_walkers fuel index num_walkers g = OutOfFuel.
Proof.
  induction fuel as [|fuel IH]; intros index num_walkers g Hn; simpl;
    [reflexivity|].
  destruct (choose_loop_coins RNG bernoulli_rng
              (Z.to_nat (num_walkers - 1)) 0 index [] g) as [_ Hlen].
  destruct (choose_loop _ 0 index [] g) as [walkers g1].
  simpl in Hlen.
  pose proof (successes_le (Z.to_nat (num_walkers - 1)) g).
  destruct (Nat.leb_spec (length walkers) 1); [now apply IH|lia].
Qed.

End SamplerMore.

Section SamplerExtras.

Variable RNG : Type.
Variable bernoulli_rng : double -> RNG -> Z * RNG.
Variable normal_rng : double -> double -> RNG -> double * RNG.
Variable rand_uniform : RNG -> double * RNG.
Variable log_prob : vector -> double.
Variable exp : double -> double.

Local Abbreviation choose_walkers := (choose_walkers RNG bernoulli_rng).
Local Abbreviation successes := (successes RNG bernoulli_rng).
Local Abbreviation after_rounds := (after_rounds RNG bernoulli_rng).
Local Abbreviation good_round := (good_round RNG bernoulli_rng).
Local Abbreviation propose_value := (propose_value RNG normal_rng).
Local Abbreviation logp_new := (logp_new log_prob).
Local Abbreviation acceptance := (acceptance exp).
Local Abbreviation walker_step :=
  (walker_step RNG bernoulli_rng normal_rng rand_uniform log_prob exp).
Local Abbreviation walker_value :=
  (walker_value RNG bernoulli_rng normal_rng rand_uniform log_prob exp).
Local Abbreviation sweep_from :=
  (sweep_from RNG bernoulli_rng normal_rng rand_uniform log_prob exp).
Local Abbreviation ensemble_transition :=
  (ensemble_transition RNG bernoulli_rng normal_rng rand_uniform log_prob exp).

(** ** The mean of the companions *)

Lemma at_int_in_range {A : Type} (l : list A) (z : Z) (a : A) :
  at_int l z = Ok a -> 0 <= z < Z.of_nat (length l).
Proof.
  unfold at_int. destruct (Z.ltb_spec z 0) as [Hz|Hz]; [discriminate|].
  intros H. apply at_ok, lookup_lt_Some in H. lia.
Qed.

Lemma mean_coeff_in_range cur size i js : forall acc m,
  mean_coeff js size cur i acc = Ok m ->
  Forall (fun w => 1 <= w <= Z.of_nat (length cur)) js.
Proof.
  induction js as [|w js IH]; intros acc m H; simpl in H; [constructor|].
  bind_inv H as s Hs. bind_inv H as x Hx.
  apply at_int_in_range in Hs. constructor; [lia|eauto].
Qed.

Lemma mean_loop_length cur js coeffs : forall ms,
  mean_loop coeffs js cur = Ok ms -> length ms = length coeffs.
Proof.
  induction coeffs as [|i coeffs IH]; intros ms H; simpl in H.
  - now injection H as <-.
  - bind_inv H as m Hm. bind_inv H as ms' Hms. injection H as <-.
    simpl. f_equal. eauto.
Qed.

Lemma mean_loop_empty cur coeffs :
  mean_loop coeffs [] cur = Ok (repeat d0 (length coeffs)).
Proof.
  induction coeffs as [|i coeffs IH]; simpl; [reflexivity|].
  now rewrite IH.
Qed.

Lemma mean_walkers_shape_aux (walker_index : list Z) (cur : list vector)
    (mean : vector) :
  mean_walkers walker_index cur = Ok mean ->
  exists s0, cur !! 0%nat = Some s0 /\ length mean = length s0.
Proof.
  unfold mean_walkers. intros H. bind_inv H as s0 Hs0. apply at_ok in Hs0.
  exists s0. split; [exact Hs0|].
  apply mean_loop_length in H. now rewrite length_seq in H.
Qed.

(** X9.  [mean_walkers] returns a vector of the dimension of
    [cur_states[0]], so it needs a first walker; it is the zero vector
    when no walker is selected; and, in positive dimension, it returns
    only if every selected index is between 1 and the number of
    walkers. *)
Theorem mean_walkers_shape (walker_index : list Z) (cur : list vector)
    (mean : vector) :
  mean_walkers walker_index cur = Ok mean ->
  exists s0,
    cur !! 0%nat = Some s0
    /\ length mean = length s0
    /\ (walker_index = [] -> mean = repeat d0 (length s0))
    /\ ((0 < length s0)%nat ->
        Forall (fun w => 1 <= w <= Z.of_nat (length cur)) walker_index).
Proof.
  unfold mean_walkers. intros H. bind_inv H as s0 Hs0. apply at_ok in Hs0.
  exists s0. split; [exact Hs0|]. split; [|split].
  - apply mean_loop_length in H. now rewrite length_seq in H.
  - intros ->. rewrite mean_loop_empty, length_seq in H. now injection H as <-.
  - intros Hpos. destruct (length s0) as [|d]; [lia|].
    simpl in H. bind_inv H as m Hm.
    eapply mean_coeff_in_range, Hm.
Qed.

(** ** One walker *)

Lemma propose_value_rng cur mean js : forall x g x' g',
  propose_value js cur mean x g = Ok (x', g') ->
  g' = after_normals normal_rng (length js) g.
Proof.
  induction js as [|w js IH]; intros x g x' g' H; simpl in H.
  - now injection H as _ <-.
  - simpl. destruct (normal_rng d0 d1 g) as [z g1]. simpl.
    bind_inv H as s Hs. bind_inv H as d Hd. bind_inv H as x1 Hx1.
    eauto.
Qed.

Lemma propose_value_dim cur mean js : forall x g x' g',
  propose_value js cur mean x g = Ok (x', g') ->
  js <> [] ->
  length x = length mean /\ length x' = length mean.
Proof.
  induction js as [|w js IH]; intros x g x' g' H Hne; [contradiction|].
  simpl in H. destruct (normal_rng d0 d1 g) as [z g1].
  bind_inv H as s Hs. bind_inv H as d Hd. bind_inv H as x1 Hx1.
  unfold vsub in Hd. destruct (Nat.eqb_spec (length s) (length mean));
    [|discriminate]. injection Hd as <-.
  unfold vadd, vscale in Hx1.
  rewrite length_map, length_zip_with in Hx1.
  destruct (Nat.eqb_spec (length x) (length s `min` length mean));
    [|discriminate]. injection Hx1 as <-.
  assert (Hx : length x = length mean) by lia.
  split; [exact Hx|].
  destruct js as [|w' js'].
  - simpl in H. injection H as <- _.
    rewrite length_zip_with, length_map, length_zip_with. lia.
  - apply IH in H as [_ H]; [exact H|discriminate].
Qed.

Lemma acceptance_le_1 (l logp0 : double) :
  dgt (acceptance l logp0) d1 = false.
Proof.
  unfold acceptance at 1. destruct (dgt (exp (dsub l logp0)) d1) eqn:G;
    [reflexivity|exact G].
Qed.

Lemma logp_new_not_nan (proposed : vector) : isnan (logp_new proposed) = false.
Proof.
  unfold logp_new at 1. destruct (isnan (log_prob proposed)) eqn:N;
    [reflexivity|exact N].
Qed.

Lemma rejected_logp0_not_nan (u l logp0 : double) :
  exp_propagates_nan exp ->
  dgt u (acceptance l logp0) = true -> isnan logp0 = false.
Proof.
  intros Hexp Hu. destruct (isnan logp0) eqn:N; [|reflexivity].
  assert (E : logp0 = nan) by (destruct logp0; try discriminate; reflexivity).
  subst logp0. unfold acceptance in Hu. rewrite dsub_nan_r in Hu.
  pose proof (Hexp nan eq_refl) as Hn.
  destruct (exp nan); try discriminate Hn. discriminate Hu.
Qed.

(** What the step of walker [i] leaves in its three slots. *)
Lemma walker_value_facts fuel i cur g v l a g' :
  walker_value fuel i cur g = Ok (v, l, a, g') ->
  dgt a d1 = false
  /\ (exp_propagates_nan exp -> isnan l = false)
  /\ (exists s0, cur !! 0%nat = Some s0 /\ length v = length s0)
  /\ exists r,
       good_round (Z.of_nat (length cur)) g r
       /\ (forall r', (r' < r)%nat ->
             ~ good_round (Z.of_nat (length cur)) g r')
       /\ g' = snd (rand_uniform
                      (after_normals normal_rng
                         (successes (length cur - 1)
                            (after_rounds r (length cur - 1) g))
                         (after_rounds (S r) (length cur - 1) g))).
Proof.
  unfold walker_value at 1. intros H.
  bind_inv H as cur_i Hcur. bind_inv H as [rw g1] Hrw.
  bind_inv H as mean Hmean. bind_inv H as [proposed g2] Hprop.
  pose proof (choose_walkers_post _ _ _ _ _ _ _ _ Hrw) as [Hlen _].
  apply choose_walkers_rounds in Hrw as (r & _ & Hfirst & Hgood & Hg1 & Hws).
  replace (Z.to_nat (Z.of_nat (length cur) - 1)) with (length cur - 1)%nat
    in Hg1, Hws by lia.
  apply mean_walkers_shape_aux in Hmean as (s0 & Hs0 & Hm).
  pose proof (propose_value_rng _ _ _ _ _ _ _ Hprop) as Hg2.
  apply propose_value_dim in Hprop as [Hx Hx'];
    [|destruct rw; [simpl in Hlen; lia|discriminate]].
  destruct (rand_uniform g2) as [u g3] eqn:U.
  assert (Hg3 : g' = g3 -> g' = snd (rand_uniform
                      (after_normals normal_rng
                         (successes (length cur - 1)
                            (after_rounds r (length cur - 1) g))
                         (after_rounds (S r) (length cur - 1) g)))).
  { intros ->. now rewrite <- Hws, <- Hg1, <- Hg2, U. }
  destruct (dgt u _) eqn:D; injection H as <- <- <- Hg.
  - split; [apply acceptance_le_1|]. split.
    + intros Hexp. eapply rejected_logp0_not_nan; eauto.
    + split; [exists s0; split; [exact Hs0|congruence]|].
      exists r. auto.
  - split; [apply acceptance_le_1|]. split.
    + intros _. apply logp_new_not_nan.
    + split; [exists s0; split; [exact Hs0|congruence]|].
      exists r. auto.
Qed.

Lemma walker_value_logp fuel i cur g v l a g' :
  exp_propagates_nan exp ->
  walker_value fuel i cur g = Ok (v, l, a, g') ->
  l = logp_new v.
Proof.
  unfold walker_value at 1. intros Hexp H.
  bind_inv H as cur_i Hcur. bind_inv H as [rw g1] Hrw.
  bind_inv H as mean Hmean. bind_inv H as [proposed g2] Hprop.
  destruct (rand_uniform g2) as [u g3].
  destruct (dgt u _) eqn:D; injection H as <- <- _ _; [|reflexivity].
  apply (rejected_logp0_not_nan _ _ _ Hexp) in D.
  unfold logp_new. now rewrite D.
Qed.

Lemma walker_step_inv fuel i cur (st st' : sweep RNG) :
  walker_step fuel i cur st = Ok st' ->
  (i < length (new_states st))%nat
  /\ (i < length (logp st))%nat
  /\ (i < length (accept_prob st))%nat
  /\ exists v l a g,
       walker_value fuel i cur (rng st) = Ok (v, l, a, g)
       /\ st' = Sweep g (<[i := v]> (new_states st)) (<[i := l]> (logp st))
                  (<[i := a]> (accept_prob st)).
Proof.
  intros H.
  destruct (walker_step_in_range _ _ _ _ _ _ _ _ _ _ _ H)
    as (Hns & Hlp & Hap).
  repeat (split; [assumption|]).
  rewrite walker_step_value in H by assumption.
  bind_inv H as [[[v l] a] g] Hv. injection H as <-.
  exists v, l, a, g. split; [exact Hv|reflexivity].
Qed.

(** ** The sweep *)

Lemma sweep_from_spec fuel cur n : forall i (st st' : sweep RNG),
  sweep_from n i fuel cur st = Ok st' ->
  (length (new_states st') = length (new_states st)
   /\ length (logp st') = length (logp st)
   /\ length (accept_prob st') = length (accept_prob st))
  /\ (forall j, (j < i \/ i + n <= j)%nat ->
        new_states st' !! j = new_states st !! j
        /\ logp st' !! j = logp st !! j
        /\ accept_prob st' !! j = accept_prob st !! j)
  /\ (forall j, (i <= j < i + n)%nat ->
        exists g v l a g2,
          walker_value fuel j cur g = Ok (v, l, a, g2)
          /\ new_states st' !! j = Some v
          /\ logp st' !! j = Some l
          /\ accept_prob st' !! j = Some a).
Proof.
  induction n as [|n IH]; intros i st st' H; simpl in H.
  - injection H as <-. repeat split; intros; lia.
  - bind_inv H as st1 H1.
    apply walker_step_inv in H1 as (Hns & Hlp & Hap & v & l & a & g & Hv & ->).
    apply IH in H as ((Ln & Ll & La) & Hout & Hin).
    cbn [rng new_states logp accept_prob] in *.
    rewrite !length_insert in *.
    split; [auto|]. split.
    + intros j Hj. destruct (Hout j) as (E1 & E2 & E3); [lia|].
      rewrite E1, E2, E3.
      now rewrite !list_lookup_insert_ne by lia.
    + intros j Hj. destruct (Nat.eq_dec j i) as [->|Hne].
      * destruct (Hout i) as (E1 & E2 & E3); [lia|].
        exists (rng st), v, l, a, g. rewrite E1, E2, E3.
        now rewrite !list_lookup_insert_eq by assumption.
      * apply Hin. lia.
Qed.

(** X10.  The companions [choose_walkers] returns are in strictly
    increasing order, hence pairwise distinct: no walker is selected
    twice. *)
Theorem companions_increasing (fuel : nat) (index num_walkers : Z)
    (g g' : RNG) (ws : list Z) :
  choose_walkers fuel index num_walkers g = Ok (ws, g') ->
  StronglySorted Z.lt ws /\ NoDup ws.
Proof.
  intros H.
  assert (Hs : StronglySorted Z.lt ws).
  { revert g H. induction fuel as [|fuel IH]; intros g H; simpl in H;
      [discriminate|].
    destruct (choose_loop_increasing RNG bernoulli_rng
                (Z.to_nat (num_walkers - 1)) 0 index [] g)
      as (added & Hfst & _ & Hsorted).
    destruct (choose_loop _ _ _ 0 index [] g) as [walkers g1].
    simpl in Hfst. subst walkers.
    destruct (length added <=? 1)%nat; [eauto|].
    now injection H as <- _. }
  split; [exact Hs|now apply increasing_NoDup].
Qed.

(** X11.  A sweep over no walker returns at once and leaves the buffers
    and the generator as they are.  A sweep over one or two walkers
    never gets past the first: [choose_walkers] flips fewer than two
    coins per round, so its retry loop does not end, whatever the
    random source. *)
Theorem degenerate_ensemble (fuel : nat) (cur : list vector)
    (st : sweep RNG) :
  (cur = [] -> ensemble_transition fuel cur st = Ok st)
  /\ ((1 <= length cur <= 2)%nat ->
      ensemble_transition fuel cur st = OutOfFuel).
Proof.
  split; [intros ->; reflexivity|]. intros Hn.
  unfold ensemble_transition at 1.
  destruct cur as [|s0 cur']; [simpl in Hn; lia|].
  cbn [length sweep_from]. unfold walker_step at 1, propose. simpl at_.
  cbn [rbind].
  rewrite (choose_walkers_small RNG bernoulli_rng) by (simpl in *; lia).
  reflexivity.
Qed.

(** X12.  [choose_walkers] returns the companions of the first round of
    coin flips with at least two successes: if it returns after round
    [r], no earlier round had two successes, the list has one entry per
    success of round [r], and the generator has gone through exactly
    [r + 1] rounds of [num_walkers - 1] flips. *)
Theorem choose_walkers_first_good_round (fuel : nat) (index num_walkers : Z)
    (g g' : RNG) (ws : list Z) :
  choose_walkers fuel index num_walkers g = Ok (ws, g') ->
  exists r, (r < fuel)%nat
    /\ (forall r', (r' < r)%nat -> ~ good_round num_walkers g r')
    /\ good_round num_walkers g r
    /\ g' = after_rounds (S r) (Z.to_nat (num_walkers - 1)) g
    /\ length ws
       = successes (Z.to_nat (num_walkers - 1))
           (after_rounds r (Z.to_nat (num_walkers - 1)) g).
Proof. apply choose_walkers_rounds. Qed.

(** X13.  The body of the sweep for one walker draws from the generator
    in a fixed order: rounds of [N - 1] coin flips up to the first round
    [r] with two successes, then one normal draw per companion, then one
    uniform draw, and nothing else. *)
Theorem walker_step_draws (fuel i : nat) (cur : list vector)
    (st st' : sweep RNG) :
  walker_step fuel i cur st = Ok st' ->
  exists r,
    good_round (Z.of_nat (length cur)) (rng st) r
    /\ (forall r', (r' < r)%nat ->
          ~ good_round (Z.of_nat (length cur)) (rng st) r')
    /\ rng st'
       = snd (rand_uniform
                (after_normals normal_rng
                   (successes (length cur - 1)
                      (after_rounds r (length cur - 1) (rng st)))
                   (after_rounds (S r) (length cur - 1) (rng st)))).
Proof.
  intros H.
  apply walker_step_inv in H as (_ & _ & _ & v & l & a & g & Hv & ->).
  apply walker_value_facts in Hv as (_ & _ & _ & r & Hgood & Hfirst & Hg).
  exists r. auto.
Qed.

(** X14.  On an ensemble whose walkers all have one dimension, with a
    slot [i] in each of the three output buffers, the body of the sweep
    for walker [i] makes no access out of range and returns within
    [r + 1] runs of the retry loop when round [r] of the coin flips has
    two successes. *)
Theorem walker_step_defined (D r i : nat) (cur : list vector)
    (st : sweep RNG) :
  ensemble D cur ->
  (i < length cur)%nat ->
  (i < length (new_states st))%nat ->
  (i < length (logp st))%nat ->
  (i < length (accept_prob st))%nat ->
  good_round (Z.of_nat (length cur)) (rng st) r ->
  exists st', walker_step (S r) i cur st = Ok st'.
Proof. apply walker_step_returns. Qed.

(** X15.  A sweep that returns has kept the sizes of [new_states], [logp]
    and [accept_prob], each of which has a slot for every walker, and has
    left every slot beyond the number of walkers as it was. *)
Theorem sweep_frame (fuel : nat) (cur : list vector) (st st' : sweep RNG) :
  ensemble_transition fuel cur st = Ok st' ->
  (length (new_states st') = length (new_states st)
   /\ length (logp st') = length (logp st)
   /\ length (accept_prob st') = length (accept_prob st))
  /\ (length cur <= length (new_states st)
      /\ length cur <= length (logp st)
      /\ length cur <= length (accept_prob st))%nat
  /\ (forall j, (length cur <= j)%nat ->
        new_states st' !! j = new_states st !! j
        /\ logp st' !! j = logp st !! j
        /\ accept_prob st' !! j = accept_prob st !! j).
Proof.
  unfold ensemble_transition at 1. intros H.
  apply sweep_from_spec in H as ((Ln & Ll & La) & Hout & Hin).
  split; [auto|]. split; [|intros j Hj; apply Hout; lia].
  destruct (length cur) as [|n] eqn:E; [lia|].
  destruct (Hin n) as (g & v & l & a & g2 & _ & Hv & Hl & Ha); [lia|].
  apply lookup_lt_Some in Hv, Hl, Ha. lia.
Qed.

(** X16.  After a sweep that returns, for an exponential that
    propagates NaN, [logp(i)] is the log-density of [new_states[i]] for
    every walker, with NaN replaced by positive infinity, whether the
    move was accepted or rejected; so no [logp(i)] is NaN; and no
    [accept_prob(i)] is greater than 1. *)
Theorem sweep_logp_consistent (fuel : nat) (cur : list vector)
    (st st' : sweep RNG) (i : nat) :
  exp_propagates_nan exp ->
  ensemble_transition fuel cur st = Ok st' ->
  (i < length cur)%nat ->
  exists v l a,
    new_states st' !! i = Some v
    /\ logp st' !! i = Some l
    /\ accept_prob st' !! i = Some a
    /\ l = logp_new v
    /\ isnan l = false
    /\ dgt a d1 = false.
Proof.
  unfold ensemble_transition at 1. intros Hexp H Hi.
  apply sweep_from_spec in H as (_ & _ & Hin).
  destruct (Hin i) as (g & v & l & a & g2 & Hv & Hns & Hl & Ha); [lia|].
  pose proof (walker_value_logp _ _ _ _ _ _ _ _ Hexp Hv) as Hlv.
  apply walker_value_facts in Hv as (Hle & Hnan & _).
  exists v, l, a. auto 10.
Qed.

(** X17.  After a sweep that returns, the new state of every walker has
    the dimension of [cur_states[0]]: the first walkers of [new_states]
    form an ensemble of one dimension again. *)
Theorem sweep_keeps_dimension (fuel : nat) (cur : list vector)
    (st st' : sweep RNG) (i : nat) :
  ensemble_transition fuel cur st = Ok st' ->
  (i < length cur)%nat ->
  exists v s0,
    new_states st' !! i = Some v
    /\ cur !! 0%nat = Some s0
    /\ length v = length s0.
Proof.
  unfold ensemble_transition at 1. intros H Hi.
  apply sweep_from_spec in H as (_ & _ & Hin).
  destruct (Hin i) as (g & v & l & a & g2 & Hv & Hns & _); [lia|].
  apply walker_value_facts in Hv as (_ & _ & (s0 & Hs0 & Hd) & _).
  exists v, s0. auto.
Qed.

Lemma choose_walkers_returns_within fuel : forall index num_walkers g r,
  good_round num_walkers g r -> (r < fuel)%nat ->
  exists ws g', choose_walkers fuel index num_walkers g = Ok (ws, g').
Proof.
  unfold good_round.
  induction fuel as [|fuel IH]; intros index num_walkers g r Hgood Hr;
    [lia|]. simpl.
  destruct (choose_loop_coins RNG bernoulli_rng
              (Z.to_nat (num_walkers - 1)) 0 index [] g) as [Hsnd Hlen].
  destruct (choose_loop RNG bernoulli_rng _ 0 index [] g) as [walkers g1] eqn:L.
  simpl in Hsnd, Hlen. subst g1.
  destruct (Nat.leb_spec (length walkers) 1) as [Hle|Hgt]; [|eauto].
  destruct r as [|r]; [simpl in Hgood; lia|].
  apply (IH _ _ _ r); [exact Hgood|lia].
Qed.

Lemma walker_step_returns_within D fuel r i cur (st : sweep RNG) :
  ensemble D cur ->
  (i < length cur)%nat ->
  (i < length (new_states st))%nat ->
  (i < length (logp st))%nat ->
  (i < length (accept_prob st))%nat ->
  good_round (Z.of_nat (length cur)) (rng st) r ->
  (r < fuel)%nat ->
  exists st', walker_step fuel i cur st = Ok st'.
Proof.
  intros Hens Hi Hns Hlp Hap Hgood Hr.
  rewrite walker_step_value by assumption. unfold walker_value at 1.
  destruct (lookup_lt_is_Some_2 cur i Hi) as [cur_i Hcur].
  rewrite (at_lookup _ _ _ Hcur). cbn [rbind].
  destruct (choose_walkers_returns_within fuel (Z.of_nat i) _ _ _ Hgood Hr)
    as (rw & g1 & Hrw).
  rewrite Hrw. cbn [rbind].
  apply choose_walkers_post in Hrw as [_ Hall].
  assert (Hin : Forall (fun w => 1 <= w <= Z.of_nat (length cur)) rw).
  { eapply Forall_impl; [exact Hall|]. simpl. intros w Hw. lia. }
  destruct (mean_walkers_returns D cur rw Hens) as (mean & -> & Hmean);
    [destruct cur; [simpl in Hi; lia|discriminate]|exact Hin|].
  cbn [rbind].
  assert (Hci : length cur_i = D).
  { unfold ensemble in Hens. rewrite Forall_lookup in Hens. eauto. }
  destruct (propose_value_returns RNG normal_rng D cur mean rw cur_i g1
              Hens Hin Hmean Hci) as (x' & g2 & ->).
  cbn [rbind]. destruct (rand_uniform g2) as [u g3].
  destruct (dgt u _); cbn [rbind]; eauto.
Qed.

Lemma sweep_from_returns D fuel cur n : forall i (st : sweep RNG),
  ensemble D cur ->
  (i + n <= length cur)%nat ->
  (length cur <= length (new_states st))%nat ->
  (length cur <= length (logp st))%nat ->
  (length cur <= length (accept_prob st))%nat ->
  (forall g, exists r,
      (r < fuel)%nat /\ good_round (Z.of_nat (length cur)) g r) ->
  exists st', sweep_from n i fuel cur st = Ok st'.
Proof.
  induction n as [|n IH]; intros i st Hens Hi Hns Hlp Hap Hsrc; simpl;
    [eauto|].
  destruct (Hsrc (rng st)) as (r & Hr & Hgood).
  destruct (walker_step_returns_within D fuel r i cur st) as [st1 H1];
    try assumption; try lia.
  rewrite H1. cbn [rbind].
  apply walker_step_inv in H1 as (_ & _ & _ & v & l & a & g & _ & ->).
  apply IH; cbn [new_states logp accept_prob]; rewrite ?length_insert;
    try assumption; lia.
Qed.

(** X18.  A sweep runs to completion over all walkers: on an ensemble of
    one dimension, with output buffers that have a slot per walker, it
    returns whenever, from every state of the generator, some round
    among the first [fuel] of the coin flips has two successes. *)
Theorem sweep_returns (D fuel : nat) (cur : list vector) (st : sweep RNG) :
  ensemble D cur ->
  (length cur <= length (new_states st))%nat ->
  (length cur <= length (logp st))%nat ->
  (length cur <= length (accept_prob st))%nat ->
  (forall g, exists r,
      (r < fuel)%nat /\ good_round (Z.of_nat (length cur)) g r) ->
  exists st', ensemble_transition fuel cur st = Ok st'.
Proof.
  intros Hens Hns Hlp Hap Hsrc. unfold ensemble_transition at 1.
  apply (sweep_from_returns D); try assumption. lia.
Qed.

End SamplerExtras.

(* ===================================================================== *)
(** * The further properties on the fixed environment *)
(* ===================================================================== *)

Lemma fixed_exp_propagates_nan : exp_propagates_nan Fixed.exp.
Proof. intros [ | | | ]; simpl; intros; try discriminate; reflexivity. Qed.

Lemma output_count_witness :
  Z.of_nat (length (data_r_ (Writer [d0; d1; d1] [])))
  = Z.of_nat (length (data_r_ (Writer [] [])))
    + expected_count (CovMatrix (Matrix 2 2 [[d1; d0]; [d0; d1]])).
Proof.
  apply (output_count Fixed.log Fixed.logit Fixed.atanh
           Fixed.factor_cov_matrix
           (CovMatrix (Matrix 2 2 [[d1; d0]; [d0; d1]]))
           (Writer [] []) (Writer [d0; d1; d1] [])).
  - simpl. lia.
  - reflexivity.
Defined.

Lemma nan_argument_rejected_witness :
  raises (run Fixed.log Fixed.logit Fixed.atanh Fixed.factor_cov_matrix
            (PosOrdered [d1; nan]) (mk_writer [] [])) = true.
Proof.
  apply (nan_argument_rejected Fixed.log Fixed.logit Fixed.atanh
           Fixed.factor_cov_matrix (PosOrdered [d1; nan]) (mk_writer [] [])).
  reflexivity.
Defined.

Lemma simplex_rejects_non_finite_witness :
  simplex_unconstrain Fixed.log [dhalf; infinity] (mk_writer [] [])
  = ConstraintViolation (mk_writer [] []).
Proof.
  apply (simplex_rejects_non_finite Fixed.log [dhalf; infinity]
           (mk_writer [] [])).
  reflexivity.
Defined.

Lemma crossed_bounds_rejected_witness :
  scalar_lub_unconstrain Fixed.logit d1 d0 dhalf (mk_writer [] [])
  = ConstraintViolation (mk_writer [] []).
Proof.
  apply (crossed_bounds_rejected Fixed.logit d1 d0 dhalf (mk_writer [] [])).
  reflexivity.
Defined.

Lemma pos_ordered_accepts_sorted_witness :
  Writer [neg_infinity; d0; d0] []
  = append (mk_writer [] []) (pos_ordered_outputs Fixed.log [d0; d1; d2])
  /\ forall i j, (i <= j < 3)%nat ->
       dle d0 (coeff [d0; d1; d2] i) = true
       /\ dle (coeff [d0; d1; d2] i) (coeff [d0; d1; d2] j) = true.
Proof.
  apply (pos_ordered_accepts_sorted Fixed.log [d0; d1; d2] (mk_writer [] [])
           (Writer [neg_infinity; d0; d0] [])).
  reflexivity.
Defined.

Lemma mean_walkers_shape_witness :
  exists s0,
    Fixed.walkers !! 0%nat = Some s0
    /\ length [S754_finite false 6755399441055744 (-52)] = length s0
    /\ ([2; 3] = [] ->
        [S754_finite false 6755399441055744 (-52)] = repeat d0 (length s0))
    /\ ((0 < length s0)%nat ->
        Forall (fun w => 1 <= w <= Z.of_nat (length Fixed.walkers)) [2; 3]).
Proof.
  apply (mean_walkers_shape [2; 3] Fixed.walkers
           [S754_finite false 6755399441055744 (-52)]).
  reflexivity.
Defined.

Lemma companions_increasing_witness :
  StronglySorted Z.lt [2; 3] /\ NoDup [2; 3].
Proof.
  apply (companions_increasing Fixed.RNG Fixed.bernoulli_rng 1 0 3
           0%nat 2%nat [2; 3]).
  reflexivity.
Defined.

Lemma choose_walkers_first_good_round_witness :
  exists r, (r < 1)%nat
    /\ (forall r', (r' < r)%nat ->
          ~ good_round Fixed.RNG Fixed.bernoulli_rng 3 0%nat r')
    /\ good_round Fixed.RNG Fixed.bernoulli_rng 3 0%nat r
    /\ 2%nat = after_rounds Fixed.RNG Fixed.bernoulli_rng (S r)
                 (Z.to_nat (3 - 1)) 0%nat
    /\ length [2; 3]
       = successes Fixed.RNG Fixed.bernoulli_rng (Z.to_nat (3 - 1))
           (after_rounds Fixed.RNG Fixed.bernoulli_rng r
              (Z.to_nat (3 - 1)) 0%nat).
Proof.
  apply (choose_walkers_first_good_round Fixed.RNG Fixed.bernoulli_rng 1 0 3
           0%nat 2%nat [2; 3]).
  reflexivity.
Defined.

Lemma walker_step_draws_witness :
  exists r,
    good_round Fixed.RNG Fixed.bernoulli_rng 3 0%nat r
    /\ (forall r', (r' < r)%nat ->
          ~ good_round Fixed.RNG Fixed.bernoulli_rng 3 0%nat r')
    /\ 5%nat
       = snd (Fixed.rand_uniform
                (after_normals Fixed.normal_rng
                   (successes Fixed.RNG Fixed.bernoulli_rng 2
                      (after_rounds Fixed.RNG Fixed.bernoulli_rng r 2 0%nat))
                   (after_rounds Fixed.RNG Fixed.bernoulli_rng (S r) 2 0%nat))).
Proof.
  apply (walker_step_draws Fixed.RNG Fixed.bernoulli_rng Fixed.normal_rng
           Fixed.rand_uniform Fixed.log_prob_flat Fixed.exp 1 0 Fixed.walkers
           Fixed.buffers
           (Sweep 5%nat [[d0]; [d0]; [d0]] [d0; d0; d0] [d1; d0; d0])).
  reflexivity.
Defined.

Lemma walker_step_defined_witness :
  exists st',
    walker_step Fixed.RNG Fixed.bernoulli_rng Fixed.normal_rng
      Fixed.rand_uniform Fixed.log_prob_flat Fixed.exp 1 0 Fixed.walkers
      Fixed.buffers = Ok st'.
Proof.
  apply (walker_step_defined Fixed.RNG Fixed.bernoulli_rng Fixed.normal_rng
           Fixed.rand_uniform Fixed.log_prob_flat Fixed.exp 1 0 0
           Fixed.walkers Fixed.buffers).
  - repeat constructor.
  - simpl. lia.
  - simpl. lia.
  - simpl. lia.
  - simpl. lia.
  - unfold good_round. vm_compute. lia.
Defined.

Lemma sweep_frame_witness :
  let st' := Sweep 15%nat [[d0]; [d1]; [d2]] [d0; d0; d0] [d1; d1; d1] in
  (length (new_states st') = length (new_states Fixed.buffers)
   /\ length (logp st') = length (logp Fixed.buffers)
   /\ length (accept_prob st') = length (accept_prob Fixed.buffers))
  /\ (length Fixed.walkers <= length (new_states Fixed.buffers)
      /\ length Fixed.walkers <= length (logp Fixed.buffers)
      /\ length Fixed.walkers <= length (accept_prob Fixed.buffers))%nat
  /\ (forall j, (length Fixed.walkers <= j)%nat ->
        new_states st' !! j = new_states Fixed.buffers !! j
        /\ logp st' !! j = logp Fixed.buffers !! j
        /\ accept_prob st' !! j = accept_prob Fixed.buffers !! j).
Proof.
  apply (sweep_frame Fixed.RNG Fixed.bernoulli_rng Fixed.normal_rng
           Fixed.rand_uniform Fixed.log_prob_flat Fixed.exp 1 Fixed.walkers
           Fixed.buffers).
  reflexivity.
Defined.

Lemma sweep_logp_consistent_witness :
  exists v l a,
    [[SFopp dhalf]; [d2]; [S754_finite false 6755399441055744 (-52)]] !! 0%nat
    = Some v
    /\ [infinity; infinity; infinity] !! 0%nat = Some l
    /\ [d1; nan; nan] !! 0%nat = Some a
    /\ l = logp_new Fixed.log_prob_origin v
    /\ isnan l = false
    /\ dgt a d1 = false.
Proof.
  apply (sweep_logp_consistent Fixed.RNG Fixed.bernoulli_rng
           Fixed.normal_rng_alt Fixed.rand_uniform Fixed.log_prob_origin
           Fixed.exp 1 Fixed.walkers Fixed.buffers
           (Sweep 15%nat
              [[SFopp dhalf]; [d2]; [S754_finite false 6755399441055744 (-52)]]
              [infinity; infinity; infinity] [d1; nan; nan])
           0 fixed_exp_propagates_nan).
  - reflexivity.
  - simpl. lia.
Defined.

Lemma sweep_keeps_dimension_witness :
  exists v s0,
    [[d0]; [d1]; [d2]] !! 1%nat = Some v
    /\ Fixed.walkers !! 0%nat = Some s0
    /\ length v = length s0.
Proof.
  apply (sweep_keeps_dimension Fixed.RNG Fixed.bernoulli_rng Fixed.normal_rng
           Fixed.rand_uniform Fixed.log_prob_flat Fixed.exp 1 Fixed.walkers
           Fixed.buffers
           (Sweep 15%nat [[d0]; [d1]; [d2]] [d0; d0; d0] [d1; d1; d1]) 1).
  - reflexivity.
  - simpl. lia.
Defined.

Lemma corr_matrix_is_cov_matrix_witness :
  exists sds,
    cov_matrix_unconstrain Fixed.factor_cov_matrix
      (Matrix 2 2 [[d1; d0]; [d0; d1]]) (mk_writer [] [])
    = Done (append (Writer [d0] []) sds)
    /\ length sds = Z.to_nat (uint 2)
    /\ Forall (fun s => dlt (dabs (dsub s d1)) CONSTRAINT_TOLERANCE = true)
         sds.
Proof.
  apply (corr_matrix_is_cov_matrix Fixed.factor_cov_matrix
           (Matrix 2 2 [[d1; d0]; [d0; d1]]) (mk_writer [] [])
           (Writer [d0] [])).
  reflexivity.
Defined.

Lemma sweep_returns_witness :
  exists st',
    ensemble_transition Fixed.RNG Fixed.bernoulli_rng Fixed.normal_rng
      Fixed.rand_uniform Fixed.log_prob_flat Fixed.exp 1 Fixed.walkers
      Fixed.buffers = Ok st'.
Proof.
  apply (sweep_returns Fixed.RNG Fixed.bernoulli_rng Fixed.normal_rng
           Fixed.rand_uniform Fixed.log_prob_flat Fixed.exp 1 1 Fixed.walkers
           Fixed.buffers).
  - repeat constructor.
  - simpl. lia.
  - simpl. lia.
  - simpl. lia.
  - intros g. exists 0%nat. split; [lia|].
    unfold good_round. vm_compute. lia.
Defined.

(* ===================================================================== *)
(** * A proposal without a log-density, in the sweep *)
(* ===================================================================== *)

Section SweepNaN.

Variable RNG : Type.
Variable bernoulli_rng : double -> RNG -> Z * RNG.
Variable normal_rng : double -> double -> RNG -> double * RNG.
Variable rand_uniform : RNG -> double * RNG.
Variable log_prob : vector -> double.
Variable exp : double -> double.

Local Abbreviation propose := (propose RNG bernoulli_rng normal_rng log_prob).
Local Abbreviation accept_reject :=
  (accept_reject RNG rand_uniform log_prob exp).
Local Abbreviation walker_step :=
  (walker_step RNG bernoulli_rng normal_rng rand_uniform log_prob exp).
Local Abbreviation sweep_from :=
  (sweep_from RNG bernoulli_rng normal_rng rand_uniform log_prob exp).
Local Abbreviation ensemble_transition :=
  (ensemble_transition RNG bernoulli_rng normal_rng rand_uniform log_prob exp).

(** The first [a] walkers, then the next [b]. *)
Lemma sweep_from_split fuel cur a b : forall i (st : sweep RNG),
  sweep_from (a + b) i fuel cur st
  = do st_a <- sweep_from a i fuel cur st;
    sweep_from b (i + a) fuel cur st_a.
Proof.
  induction a as [|a IH]; intros i st; simpl.
  - now rewrite Nat.add_0_r.
  - destruct (walker_step fuel i cur st) as [st1| |]; simpl;
      try reflexivity.
    rewrite IH. now replace (i + S a)%nat with (S i + a)%nat by lia.
Qed.

(** C2.  In a sweep, let [st_i] be the buffers and the generator when the
    turn of walker [i] comes, and let the proposal of lines 73-84 from
    there give the initial log-density [logp0] and the proposed position
    [proposed].  If the oracle returns NaN at [proposed] and [logp0] is
    finite, then after the sweep [logp(i)] is positive infinity,
    [accept_prob(i)] is 1 and [new_states[i]] is the proposed position,
    whatever the uniform draw in [[0, 1)]. *)
Theorem nan_proposal_accepted (fuel i : nat) (cur : list vector)
    (st st_i st1 st' : sweep RNG) (logp0 : double) (proposed : vector) :
  exp_at_infinity exp ->
  uniform_01 RNG rand_uniform ->
  ensemble_transition fuel cur st = Ok st' ->
  (i < length cur)%nat ->
  sweep_from i 0 fuel cur st = Ok st_i ->
  propose fuel i cur st_i = Ok (logp0, st1) ->
  new_states st1 !! i = Some proposed ->
  isnan (log_prob proposed) = true ->
  is_finite logp0 = true ->
  logp st' !! i = Some infinity
  /\ accept_prob st' !! i = Some d1
  /\ new_states st' !! i = Some proposed.
Proof.
  intros Hexp Hu Hsweep Hi Hbefore Hprop Hproposed Hnan Hfin.
  unfold ensemble_transition in Hsweep.
  replace (length cur) with (i + S (length cur - S i))%nat in Hsweep
    at 1 by lia.
  rewrite sweep_from_split, Hbefore in Hsweep.
  cbn [rbind sweep_from] in Hsweep. simpl in Hsweep.
  bind_inv Hsweep as st2 Hstep.
  unfold walker_step in Hstep. rewrite Hprop in Hstep. cbn [rbind] in Hstep.
  destruct (accept_reject_in_range _ _ _ _ _ _ _ _ _ Hstep)
    as (_ & Hlp & Hap).
  destruct (lookup_lt_is_Some_2 cur i Hi) as [cur_i Hcur].
  destruct (accept_reject_nan_proposal RNG rand_uniform log_prob exp
              i cur logp0 st1 proposed cur_i Hexp Hu Hcur Hproposed Hlp Hap
              Hnan Hfin) as (st2' & Hst2 & Hl & Ha & Hn).
  rewrite Hstep in Hst2. injection Hst2 as <-.
  apply sweep_from_spec in Hsweep as (_ & Hout & _).
  destruct (Hout i) as (E1 & E2 & E3); [lia|].
  now rewrite E1, E2, E3.
Qed.

End SweepNaN.

Lemma nan_proposal_accepted_witness :
  let st' :=
    Sweep 15%nat
      [[SFopp dhalf]; [d2]; [S754_finite false 6755399441055744 (-52)]]
      [infinity; infinity; infinity] [d1; nan; nan] in
  logp st' !! 0%nat = Some infinity
  /\ accept_prob st' !! 0%nat = Some d1
  /\ new_states st' !! 0%nat = Some [SFopp dhalf].
Proof.
  apply (nan_proposal_accepted Fixed.RNG Fixed.bernoulli_rng
           Fixed.normal_rng_alt Fixed.rand_uniform Fixed.log_prob_origin
           Fixed.exp 1 0 Fixed.walkers Fixed.buffers Fixed.buffers
           (Sweep 4%nat [[SFopp dhalf]; [d0]; [d0]] [d0; d0; d0] [d0; d0; d0])
           _ d0 [SFopp dhalf] fixed_exp_at_infinity fixed_uniform_01);
    try reflexivity. simpl. lia.
Defined.
